(** * xitren::containers::circular_buffer

    A shallow embedding of [include/xitren/circular_buffer.hpp]: the
    fixed-capacity ring buffer, its iterator, and the free stream and
    comparison operators, followed by the properties of the
    specification that were checked against it.

    Conventions.
    - [size_t] is the 64-bit unsigned type of an LP64 target: a value is
      an integer in [0, 2^64) and every arithmetic result is reduced by
      [wrap].  [ptrdiff_t] is its signed counterpart.
    - [std::array<storage_type, Size>] is a [list T] read with stdpp's
      total lookup and written with list insert; every access of the
      source goes through [data], which reduces the index modulo [Size].
    - A method [void m(...)] becomes a function from the buffer before
      the call to the buffer after it.
    - An iterator is its logical position [pos_]; the buffer pointer
      [buf_] it carries in the source is the buffer passed to [deref]. *)

From Stdlib Require Import ZArith Lia.
From stdpp Require Import base numbers list strings.
From Equations Require Import Equations.

Local Open Scope Z_scope.

(** The two loops below are defined by well-founded recursion; their
    unfolding equations are proved without functional extensionality. *)
Unset Equations With Funext.

(** ** Machine integers *)

Definition SIZE_MOD : Z := 2 ^ 64.
Definition SIZE_MAX : Z := SIZE_MOD - 1.
Definition PTRDIFF_MAX : Z := 2 ^ 63 - 1.

(** Conversion of a mathematical integer to [size_t]. *)
Definition wrap (x : Z) : Z := x mod SIZE_MOD.

(** Conversion of a mathematical integer to [ptrdiff_t]. *)
Definition to_difference (x : Z) : Z := (x + 2 ^ 63) mod SIZE_MOD - 2 ^ 63.

(** ** The buffer and its iterator *)

Record circular_buffer (T : Type) : Type := Build_circular_buffer {
  data_ : list T;
  tail_ : Z;
  size_ : Z
}.
Arguments Build_circular_buffer {T} _ _ _.
Arguments data_ {T} _.
Arguments tail_ {T} _.
Arguments size_ {T} _.

Record circular_buffer_iterator : Type := Build_iterator { pos_ : Z }.

Module iter.

Definition lt (a b : circular_buffer_iterator) : bool := pos_ a <? pos_ b.

Definition neq (a b : circular_buffer_iterator) : bool :=
  negb (pos_ a =? pos_ b).

(** [operator++()] *)
Definition incr (a : circular_buffer_iterator) : circular_buffer_iterator :=
  Build_iterator (wrap (pos_ a + 1)).

(** [operator+=(difference_type n)] *)
Definition add_assign (a : circular_buffer_iterator) (n : Z)
  : circular_buffer_iterator :=
  Build_iterator (wrap (pos_ a + n)).

(** [operator+(difference_type n)]: a copy advanced by [n]. *)
Definition plus (a : circular_buffer_iterator) (n : Z)
  : circular_buffer_iterator :=
  add_assign a n.

(** [operator-(circular_buffer_iterator const&)] *)
Definition diff (a b : circular_buffer_iterator) : Z :=
  to_difference (wrap (pos_ a - pos_ b)).

End iter.

Section Buffer.

Context {T : Type} `{!Inhabited T}.

(** The template parameter [Size]. *)
Variable Size : Z.

Implicit Types (b : circular_buffer T) (item : T).

(** The default constructor: [tail_{0}], [size_{0}], and a backing
    array whose content [mem] is whatever the memory holds. *)
Definition construct (mem : list T) : circular_buffer T :=
  Build_circular_buffer mem 0 0.

Definition tail b : Z := tail_ b.
Definition head b : Z := wrap (tail_ b - size_ b).
Definition size b : Z := size_ b.
Definition capacity b : Z := Size.
Definition empty b : bool := size_ b =? 0.
Definition full b : bool := size_ b >=? Size.

Definition clear b : circular_buffer T :=
  Build_circular_buffer (data_ b) 0 0.

(** [data(index)] read: [data_[index % Size]]. *)
Definition data b (index : Z) : T :=
  data_ b !!! Z.to_nat (index mod Size).

(** [data(index) = item]: the store through the reference. *)
Definition data_store b (index : Z) item : list T :=
  <[Z.to_nat (index mod Size) := item]> (data_ b).

Definition front b : T := data b (head b).
Definition back b : T := data b (wrap (tail_ b - 1)).

(** [operator[](index)] *)
Definition at_index b (index : Z) : T := data b (wrap (head b + index)).

(** [data(tail_++) = item; ++size_; size_ = std::min(size_, Size);] *)
Definition push b item : circular_buffer T :=
  let d := data_store b (tail_ b) item in
  let t := wrap (tail_ b + 1) in
  let s := wrap (size_ b + 1) in
  Build_circular_buffer d t (Z.min s Size).

(** [size_ -= 1 && !empty();] the right-hand side is a [bool]
    converted to 0 or 1. *)
Definition pop b : circular_buffer T :=
  Build_circular_buffer (data_ b) (tail_ b)
    (wrap (size_ b - Z.b2z (true && negb (empty b)))).

Definition begin b : circular_buffer_iterator := Build_iterator 0.
Definition end_ b : circular_buffer_iterator := Build_iterator (size_ b).

(** [operator*()] of an iterator into [b]. *)
Definition deref b (it : circular_buffer_iterator) : T :=
  at_index b (pos_ it).

(** [std::min(size_, ((head() / Size) + 1) * Size - head())] *)
Definition size_circle_end b : Z :=
  Z.min (size_ b)
        (wrap (wrap (wrap (head b / Size + 1) * Size) - head b)).

Definition circle_end b : Z :=
  if empty b then tail_ b else wrap (head b + size_circle_end b).

Definition mend b : circular_buffer_iterator :=
  Build_iterator (size_circle_end b).

(** [storage()]: the address of slot 0; what can be read through it is
    the backing array. *)
Definition storage b : list T := data_ b.

Definition update_head b (head_next : Z) : circular_buffer T :=
  let tail := tail_ b mod Size in
  let head_next := head_next mod Size in
  let inc := if tail >? head_next
             then wrap (wrap (Size - tail) + head_next)
             else wrap (head_next - tail) in
  let s := wrap (size_ b + inc) in
  let t := wrap (tail_ b + inc) in
  Build_circular_buffer (data_ b) t (Z.min s Size).

(** The range-based [for (auto& item : buffer)], that is
    [for (auto it = begin(); it != end(); ++it)] visiting [*it]. *)
Equations? range_for (b : circular_buffer T)
    (it e : circular_buffer_iterator)
    (Hrange : 0 <= pos_ it <= pos_ e /\ pos_ e < SIZE_MOD) : list T
    by wf (Z.to_nat (pos_ e - pos_ it)) lt :=
  range_for b it e Hrange
    with Equations.Prop.Logic.inspect (iter.neq it e) => {
    | exist _ true Hne => deref b it :: range_for b (iter.incr it) e _
    | exist _ false _ => [] }.
Proof.
  all: unfold iter.neq in Hne; apply negb_true_iff, Z.eqb_neq in Hne.
  all: unfold wrap, SIZE_MOD in *; simpl.
  all: rewrite Z.mod_small by lia; lia.
Qed.

(** The elements met from [begin()] to [end()]: the positions
    [0 .. size_ - 1] in increasing order (see [range_for_to_list]). *)
Definition to_list b : list T :=
  (fun pos => deref b (Build_iterator pos)) <$> seqZ 0 (size_ b).

(** ** Free operators *)

(** [operator<<(buffer, in_data)] *)
Definition shl b (in_data : list T) : circular_buffer T :=
  fold_left push in_data b.

(** The loop of [operator>>(buffer, std::size_t)]:
    [for (auto iter{...}; iter < end; ++iter) buffer.pop();] *)
Equations? shr_count_loop (b : circular_buffer T)
    (it e : circular_buffer_iterator)
    (Hrange : 0 <= pos_ it /\ pos_ e < SIZE_MOD) : circular_buffer T
    by wf (Z.to_nat (pos_ e - pos_ it)) lt :=
  shr_count_loop b it e Hrange
    with Equations.Prop.Logic.inspect (iter.lt it e) => {
    | exist _ true Hlt => shr_count_loop (pop b) (iter.incr it) e _
    | exist _ false _ => b }.
Proof.
  all: unfold iter.lt in Hlt; apply Z.ltb_lt in Hlt.
  all: unfold wrap, SIZE_MOD in *; simpl.
  all: rewrite Z.mod_small by lia; lia.
Qed.

(** [operator>>(buffer, std::size_t size)]: [size] is converted to
    [difference_type] for [begin() + size]; both iterators hold
    [size_t] positions. *)
Definition shr_count b (n : Z) : circular_buffer T :=
  shr_count_loop b (begin b) (iter.plus (begin b) (to_difference n))
    (conj (Z.le_refl 0)
          (proj2 (Z.mod_pos_bound (0 + to_difference n) SIZE_MOD eq_refl))).

(** The copy loop of [operator>>(buffer, Array&)]:
    [for (auto& item : out_data) { item = buffer.front(); buffer.pop(); }] *)
Fixpoint shr_array_loop b (out_data : list T)
  : circular_buffer T * list T :=
  match out_data with
  | [] => (b, [])
  | _ :: rest =>
      let item := front b in
      let b1 := pop b in
      let (b2, rest') := shr_array_loop b1 rest in
      (b2, item :: rest')
  end.

(** [operator>>(buffer, Array& out_data)]: the buffer and the
    container after the call. *)
Definition shr_array b (out_data : list T) : circular_buffer T * list T :=
  if size b <? Z.of_nat (length out_data)
  then (b, out_data)
  else shr_array_loop b out_data.

(** The loop of [operator==]:
    [for (auto& item : in_data) res = res & (item == *iter++);] *)
Fixpoint eq_array_loop `{!EqDecision T} b (res : bool)
    (it : circular_buffer_iterator) (in_data : list T) : bool :=
  match in_data with
  | [] => res
  | item :: rest =>
      eq_array_loop b (res && bool_decide (item = deref b it))
                    (iter.incr it) rest
  end.

(** [operator==(buffer, in_data)].  The local [bool res;] is declared
    without an initialiser; [res] is the value it happens to hold when
    the loop starts. *)
Definition eq_array `{!EqDecision T} (res : bool) b (in_data : list T)
  : bool :=
  eq_array_loop b res (begin b) in_data.

(** ** Sequences of calls *)

Inductive operation : Type :=
| OpPush (item : T)
| OpPop
| OpClear
| OpUpdateHead (head_next : Z)
| OpShl (in_data : list T)
| OpShrCount (n : Z)
| OpShrArray (out_data : list T).

Definition apply_operation b (op : operation) : circular_buffer T :=
  match op with
  | OpPush item => push b item
  | OpPop => pop b
  | OpClear => clear b
  | OpUpdateHead head_next => update_head b head_next
  | OpShl in_data => shl b in_data
  | OpShrCount n => shr_count b n
  | OpShrArray out_data => fst (shr_array b out_data)
  end.

Definition run b (ops : list operation) : circular_buffer T :=
  fold_left apply_operation ops b.

(** ** Notions used to state the properties *)

(** The forward wrapping distance of the specification, from the
    physical tail to the slot [p]. *)
Definition wrap_distance b (p : Z) : Z :=
  (p mod Size - tail_ b mod Size) mod Size.

(** The state in which the buffer is a queue: the backing array has
    its [Size] slots, [size_] is within the capacity, and the tail
    counter has not overflowed since the oldest element was written. *)
Record queue_state b : Prop := {
  qs_data : length (data_ b) = Z.to_nat Size;
  qs_size : 0 <= size_ b <= Size;
  qs_head : size_ b <= tail_ b;
  qs_tail : tail_ b < SIZE_MOD
}.

(** The [n] most recently appended elements of a sequence. *)
Definition newest (n : nat) (xs : list T) : list T :=
  drop (length xs - n) xs.

Definition size_bounded b : Prop := 0 <= size_ b <= Size.

End Buffer.

Arguments operation : clear implicits.

(** [uint8_t] values of a character string, as the tests write them. *)
Definition bytes (s : string) : list Z :=
  (fun c => Z.of_N (Ascii.N_of_ascii c)) <$> String.list_ascii_of_string s.

(** ** The remaining iterator operators *)

Module iter_ops.

(** [operator==], [operator<=], [operator>], [operator>=]: comparisons
    of the unsigned positions. *)
Definition eq (a b : circular_buffer_iterator) : bool := pos_ a =? pos_ b.
Definition le (a b : circular_buffer_iterator) : bool := pos_ a <=? pos_ b.
Definition gt (a b : circular_buffer_iterator) : bool := pos_ a >? pos_ b.
Definition ge (a b : circular_buffer_iterator) : bool := pos_ a >=? pos_ b.

(** [operator--()] *)
Definition decr (a : circular_buffer_iterator) : circular_buffer_iterator :=
  Build_iterator (wrap (pos_ a - 1)).

(** [operator+=(std::size_t n)] *)
Definition add_assign_size (a : circular_buffer_iterator) (n : Z)
  : circular_buffer_iterator :=
  Build_iterator (wrap (pos_ a + n)).

(** [operator-=(difference_type n)]: [return *this += -n;] where [-n] is
    computed in [difference_type]. *)
Definition sub_assign (a : circular_buffer_iterator) (n : Z)
  : circular_buffer_iterator :=
  iter.add_assign a (to_difference (- n)).

(** [operator-(difference_type n)]: a copy moved back by [n]. *)
Definition minus (a : circular_buffer_iterator) (n : Z)
  : circular_buffer_iterator :=
  sub_assign a n.

End iter_ops.

Section Queue.

Context {T : Type} `{!Inhabited T}.
Variable Size : Z.

(** The slots of the backing array [d] met at the logical positions
    [start, start + len). *)
Definition slots (d : list T) (start len : Z) : list T :=
  (fun i => d !!! Z.to_nat (i mod Size)) <$> seqZ start len.

(** A bounded first-in first-out queue of capacity [Size] that gives up
    its oldest elements when more are appended than fit: what a call
    does to the sequence of held elements.  [update_head] reads the
    backing memory and is not an operation of this queue. *)
Definition queue_step (held : list T) (op : operation T) : list T :=
  match op with
  | OpPush item => newest (Z.to_nat Size) (held ++ [item])
  | OpPop => drop 1 held
  | OpClear => []
  | OpUpdateHead _ => held
  | OpShl in_data => newest (Z.to_nat Size) (held ++ in_data)
  | OpShrCount n => drop (Z.to_nat n) held
  | OpShrArray out_data =>
      if (length held <? length out_data)%nat then held
      else drop (length out_data) held
  end.

Definition queue_run (held : list T) (ops : list (operation T)) : list T :=
  fold_left queue_step ops held.

(** The calls the queue reading covers: every one but [update_head],
    with a [size_t] count for [>>]. *)
Definition queue_op (op : operation T) : Prop :=
  match op with
  | OpUpdateHead _ => False
  | OpShrCount n => 0 <= n < SIZE_MOD
  | _ => True
  end.

(** How far a call advances the tail counter at most. *)
Definition written (op : operation T) : Z :=
  match op with
  | OpPush _ => 1
  | OpShl in_data => Z.of_nat (length in_data)
  | _ => 0
  end.

Definition written_total (ops : list (operation T)) : Z :=
  foldr (fun op acc => written op + acc) 0 ops.

End Queue.

(** * Properties *)

(** ** [size_t] arithmetic *)

Lemma SIZE_MOD_pos : 0 < SIZE_MOD.
Proof. reflexivity. Qed.

Lemma PTRDIFF_MAX_lt : 2 * PTRDIFF_MAX < SIZE_MOD.
Proof. reflexivity. Qed.

Lemma wrap_range x : 0 <= wrap x < SIZE_MOD.
Proof. apply Z.mod_pos_bound, SIZE_MOD_pos. Qed.

Lemma wrap_small x : 0 <= x < SIZE_MOD -> wrap x = x.
Proof. apply Z.mod_small. Qed.

Lemma wrap_add_l x y : wrap (wrap x + y) = wrap (x + y).
Proof. apply Zplus_mod_idemp_l. Qed.

Lemma wrap_add_r x y : wrap (x + wrap y) = wrap (x + y).
Proof. apply Zplus_mod_idemp_r. Qed.

Lemma wrap_sub_l x y : wrap (wrap x - y) = wrap (x - y).
Proof. apply Zminus_mod_idemp_l. Qed.

Lemma wrap_mul_l x y : wrap (wrap x * y) = wrap (x * y).
Proof. apply Zmult_mod_idemp_l. Qed.

Lemma wrap_to_difference x : wrap (to_difference x) = wrap x.
Proof.
  unfold wrap, to_difference.
  rewrite Zminus_mod_idemp_l. f_equal. lia.
Qed.

(** An overflowing sum of two [size_t] values loses exactly [SIZE_MOD]. *)
Lemma wrap_overflow x :
  SIZE_MOD <= x < 2 * SIZE_MOD -> wrap x = x - SIZE_MOD.
Proof.
  intros Hx. unfold wrap.
  replace x with (x - SIZE_MOD + 1 * SIZE_MOD) at 1 by lia.
  rewrite Z_mod_plus_full. apply Z.mod_small. lia.
Qed.

(** Two indices less than [n] apart fall into different slots. *)
Lemma slot_neq n i j : 0 < j - i < n -> i mod n ≠ j mod n.
Proof.
  intros Hd Heq.
  assert (Hz : (j - i) mod n = 0).
  { rewrite Zminus_mod, Heq, Z.sub_diag. apply Z.mod_0_l. lia. }
  rewrite Z.mod_small in Hz by lia. lia.
Qed.

(** Closes an equation between two reads of one array by comparing the
    index expressions. *)
Ltac same_slot := solve [ lia | f_equal; same_slot ].

Section Properties.

Context {T : Type} `{!Inhabited T}.
Variable Size : Z.

(** The capacities for which the class can be instantiated and used:
    [data] divides by [Size], and an object of [Size] slots exists only
    if its size does not exceed [PTRDIFF_MAX]. *)
Hypothesis Size_range : 0 < Size <= PTRDIFF_MAX.

Implicit Types (b : circular_buffer T) (item : T).

Lemma Size_lt_mod : 2 * Size < SIZE_MOD.
Proof. pose proof PTRDIFF_MAX_lt. lia. Qed.

(** *** pop *)

Lemma pop_empty b : size_ b = 0 -> pop b = b.
Proof.
  intros Hs. destruct b as [d t s]; simpl in *; subst s.
  reflexivity.
Qed.

Lemma pop_nonempty b :
  0 < size_ b < SIZE_MOD ->
  pop b = Build_circular_buffer (data_ b) (tail_ b) (size_ b - 1).
Proof.
  intros Hs. unfold pop, empty.
  destruct (Z.eqb_spec (size_ b) 0) as [E|_]; [lia|]. simpl.
  rewrite wrap_small by lia. reflexivity.
Qed.

Lemma size_pop b :
  0 <= size_ b < SIZE_MOD -> size_ (pop b) = Z.max 0 (size_ b - 1).
Proof.
  intros Hs. destruct (decide (size_ b = 0)) as [E|E].
  - rewrite pop_empty by done. lia.
  - rewrite pop_nonempty by lia. simpl. lia.
Qed.

Lemma iter_pop (k : nat) b :
  0 <= size_ b < SIZE_MOD ->
  Nat.iter k pop b =
  Build_circular_buffer (data_ b) (tail_ b) (Z.max 0 (size_ b - Z.of_nat k)).
Proof.
  revert b. induction k as [|k IH]; intros b Hs.
  - simpl. destruct b; simpl in *. f_equal. lia.
  - rewrite Nat.iter_succ_r, IH.
    + destruct (decide (size_ b = 0)) as [E|E].
      * rewrite pop_empty by done. f_equal. lia.
      * rewrite pop_nonempty by lia. simpl. f_equal. lia.
    + rewrite size_pop by done. lia.
Qed.

(** *** mend *)

Lemma size_circle_end_eq b :
  size_circle_end Size b = Z.min (size_ b) (Size - head b mod Size).
Proof.
  unfold size_circle_end. f_equal.
  rewrite wrap_mul_l, wrap_sub_l.
  pose proof (Z.div_mod (head b) Size ltac:(lia)) as Hdm.
  pose proof (Z.mod_pos_bound (head b) Size ltac:(lia)) as Hm.
  replace ((head b / Size + 1) * Size - head b)
    with (Size - head b mod Size) by lia.
  apply wrap_small. pose proof Size_lt_mod. lia.
Qed.

(** *** update_head *)

Lemma wrap_distance_range b p : 0 <= wrap_distance Size b p < Size.
Proof. apply Z.mod_pos_bound. lia. Qed.

Lemma update_head_eq b p :
  update_head Size b p =
  Build_circular_buffer (data_ b)
    (wrap (tail_ b + wrap_distance Size b p))
    (Z.min (wrap (size_ b + wrap_distance Size b p)) Size).
Proof.
  unfold update_head, wrap_distance.
  pose proof (Z.mod_pos_bound (tail_ b) Size ltac:(lia)) as Ht.
  pose proof (Z.mod_pos_bound p Size ltac:(lia)) as Hp.
  pose proof Size_lt_mod as HS.
  set (t := tail_ b mod Size) in *. set (q := p mod Size) in *.
  assert (Hinc : (if t >? q then wrap (wrap (Size - t) + q)
                  else wrap (q - t)) = (q - t) mod Size).
  { destruct (Z.gtb_spec t q) as [Hgt|Hle].
    - rewrite wrap_add_l, wrap_small by lia. symmetry.
      replace (q - t) with (Size - t + q + (-1) * Size) by lia.
      rewrite Z_mod_plus_full. apply Z.mod_small. lia.
    - rewrite wrap_small by lia. symmetry. apply Z.mod_small. lia. }
  rewrite Hinc. reflexivity.
Qed.

(** After one call without counter overflow the physical tail is the
    requested slot. *)
Lemma wrap_distance_reaches b p :
  (tail_ b + wrap_distance Size b p) mod Size = p mod Size.
Proof.
  unfold wrap_distance.
  rewrite Zplus_mod_idemp_r.
  replace (tail_ b + (p mod Size - tail_ b mod Size))
    with (p mod Size + (tail_ b - tail_ b mod Size)) by lia.
  rewrite (Z.div_mod (tail_ b) Size) at 1 by lia.
  replace (p mod Size + (Size * (tail_ b / Size) + tail_ b mod Size
                         - tail_ b mod Size))
    with (p mod Size + (tail_ b / Size) * Size) by lia.
  rewrite Z_mod_plus_full. apply Z.mod_mod. lia.
Qed.

Lemma wrap_distance_zero b p :
  tail_ b mod Size = p mod Size -> wrap_distance Size b p = 0.
Proof.
  intros E. unfold wrap_distance. rewrite E, Z.sub_diag.
  apply Z.mod_0_l. lia.
Qed.

Lemma wrap_distance_zero_inv b p :
  wrap_distance Size b p = 0 -> tail_ b mod Size = p mod Size.
Proof.
  unfold wrap_distance. intros E.
  pose proof (Z.mod_pos_bound (tail_ b) Size ltac:(lia)) as Ht.
  pose proof (Z.mod_pos_bound p Size ltac:(lia)) as Hp.
  destruct (decide (tail_ b mod Size <= p mod Size)) as [Hle|Hgt].
  - rewrite Z.mod_small in E by lia. lia.
  - replace (p mod Size - tail_ b mod Size)
      with (p mod Size - tail_ b mod Size + Size + (-1) * Size) in E by lia.
    rewrite Z_mod_plus_full, Z.mod_small in E by lia. lia.
Qed.

(** *** Iteration *)

Lemma length_to_list b : length (to_list Size b) = Z.to_nat (size_ b).
Proof. unfold to_list. by rewrite length_fmap, length_seqZ. Qed.

Lemma to_list_empty b : size_ b <= 0 -> to_list Size b = [].
Proof. intros Hs. unfold to_list. by rewrite seqZ_nil. Qed.

(** The first element met is [front()], the others are those of the
    buffer after [pop()]. *)
Lemma to_list_cons b :
  0 < size_ b < SIZE_MOD ->
  to_list Size b = front Size b :: to_list Size (pop b).
Proof.
  intros Hs. rewrite pop_nonempty by done.
  unfold to_list at 1. rewrite seqZ_cons by lia. rewrite fmap_cons.
  f_equal.
  - unfold deref, at_index, front, head. simpl.
    by rewrite Z.add_0_r, wrap_small by apply wrap_range.
  - unfold to_list. simpl.
    replace (Z.succ 0) with (1 + 0) by lia.
    rewrite <- fmap_add_seqZ, <- list_fmap_compose.
    replace (Z.pred (size_ b)) with (size_ b - 1) by lia.
    apply list_fmap_ext. intros i pos _.
    unfold deref, at_index, data, head. simpl.
    rewrite !wrap_add_l. same_slot.
Qed.

Lemma to_list_pop b :
  0 <= size_ b < SIZE_MOD ->
  to_list Size (pop b) = drop 1 (to_list Size b).
Proof.
  intros Hs. destruct (decide (size_ b = 0)) as [E|E].
  - rewrite pop_empty by done. by rewrite to_list_empty by lia.
  - by rewrite (to_list_cons b) by lia.
Qed.

Lemma to_list_iter_pop (k : nat) b :
  0 <= size_ b < SIZE_MOD ->
  to_list Size (Nat.iter k pop b) = drop k (to_list Size b).
Proof.
  revert b. induction k as [|k IH]; intros b Hs; [done|].
  rewrite Nat.iter_succ_r, IH, to_list_pop by (rewrite ?size_pop; lia).
  by rewrite drop_drop.
Qed.

(** *** push *)

Lemma push_eq b item :
  0 <= size_ b <= Size ->
  push Size b item =
  Build_circular_buffer (<[Z.to_nat (tail_ b mod Size) := item]> (data_ b))
    (wrap (tail_ b + 1)) (Z.min (size_ b + 1) Size).
Proof.
  intros Hs. unfold push, data_store. pose proof Size_lt_mod.
  by rewrite (wrap_small (size_ b + 1)) by lia.
Qed.

Lemma push_queue_state b item :
  queue_state Size b -> tail_ b + 1 < SIZE_MOD ->
  queue_state Size (push Size b item).
Proof.
  intros [Hd Hs Hh Ht] Hov. rewrite push_eq by done.
  split; simpl.
  - by rewrite length_insert.
  - lia.
  - rewrite wrap_small by lia. lia.
  - apply wrap_range.
Qed.

(** Reading a slot of the window after the store of [push]. *)
Lemma data_push_old b item (i : Z) :
  length (data_ b) = Z.to_nat Size ->
  0 < tail_ b - i < Size ->
  <[Z.to_nat (tail_ b mod Size) := item]> (data_ b) !!! Z.to_nat (i mod Size)
  = data_ b !!! Z.to_nat (i mod Size).
Proof.
  intros Hd Hi. apply list_lookup_total_insert_ne.
  pose proof (slot_neq Size i (tail_ b) Hi).
  pose proof (Z.mod_pos_bound i Size ltac:(lia)).
  pose proof (Z.mod_pos_bound (tail_ b) Size ltac:(lia)).
  lia.
Qed.

Lemma data_push_new b item :
  length (data_ b) = Z.to_nat Size ->
  <[Z.to_nat (tail_ b mod Size) := item]> (data_ b)
    !!! Z.to_nat (tail_ b mod Size) = item.
Proof.
  intros Hd. apply list_lookup_total_insert_eq.
  pose proof (Z.mod_pos_bound (tail_ b) Size ltac:(lia)). lia.
Qed.

Lemma to_list_push b item :
  queue_state Size b -> tail_ b + 1 < SIZE_MOD ->
  to_list Size (push Size b item) =
  (if full Size b then drop 1 (to_list Size b) else to_list Size b)
    ++ [item].
Proof.
  intros [Hd Hs Hh Ht] Hov. rewrite push_eq by done.
  pose proof Size_lt_mod as HS.
  remember (Z.min (size_ b + 1) Size) as s' eqn:Es'.
  unfold to_list at 1. simpl.
  replace s' with ((s' - 1) + 1) at 1 by lia.
  rewrite seqZ_app by lia.
  replace (seqZ (0 + (s' - 1)) 1) with [s' - 1]
    by (rewrite seqZ_cons, seqZ_nil by lia; f_equal; lia).
  rewrite fmap_app.
  unfold deref, at_index, data, head. simpl.
  rewrite (wrap_small (tail_ b + 1)) by lia.
  rewrite (wrap_small (tail_ b + 1 - s')) by lia.
  f_equal.
  - (* the elements that were already there *)
    transitivity ((fun pos => data_ b !!!
                     Z.to_nat ((tail_ b + 1 - s' + pos) mod Size))
                  <$> seqZ 0 (s' - 1)).
    { apply list_fmap_ext. intros k pos Hk.
      apply lookup_seqZ in Hk as [-> Hk].
      rewrite wrap_small by lia.
      apply data_push_old; [done | lia]. }
    unfold full. destruct (Z.geb_spec (size_ b) Size) as [Hfull|Hroom].
    + rewrite (to_list_cons b) by lia. simpl. rewrite drop_0.
      rewrite pop_nonempty by lia.
      unfold to_list, deref, at_index, data, head. simpl.
      replace (s' - 1) with (size_ b - 1) by lia.
      apply list_fmap_ext. intros k pos Hk.
      apply lookup_seqZ in Hk as [-> Hk].
      rewrite (wrap_small (tail_ b - (size_ b - 1))) by lia.
      rewrite wrap_small by lia. same_slot.
    + unfold to_list, deref, at_index, data, head. simpl.
      replace (s' - 1) with (size_ b) by lia.
      apply list_fmap_ext. intros k pos Hk.
      apply lookup_seqZ in Hk as [-> Hk].
      rewrite (wrap_small (tail_ b - size_ b)) by lia.
      rewrite wrap_small by lia. same_slot.
  - (* the element just written *)
    f_equal.
    replace (tail_ b + 1 - s' + (s' - 1)) with (tail_ b) by lia.
    rewrite wrap_small by lia. by apply data_push_new.
Qed.

(** *** operator<< *)

Lemma newest_all n (xs : list T) :
  (length xs <= n)%nat -> newest n xs = xs.
Proof.
  intros Hn. unfold newest.
  by replace (length xs - n)%nat with 0%nat by lia.
Qed.

Lemma shl_cons b item in_data :
  shl Size b (item :: in_data) = shl Size (push Size b item) in_data.
Proof. reflexivity. Qed.

Lemma shl_snoc b in_data item :
  shl Size b (in_data ++ [item]) = push Size (shl Size b in_data) item.
Proof. unfold shl. by rewrite fold_left_app. Qed.

Lemma to_list_shl in_data : forall b,
  queue_state Size b ->
  tail_ b + Z.of_nat (length in_data) < SIZE_MOD ->
  queue_state Size (shl Size b in_data) /\
  tail_ (shl Size b in_data) = tail_ b + Z.of_nat (length in_data) /\
  to_list Size (shl Size b in_data) =
    newest (Z.to_nat Size) (to_list Size b ++ in_data).
Proof.
  induction in_data as [|item rest IH]; intros b Hq Hov.
  - simpl. split; [done|]. split; [lia|].
    rewrite app_nil_r, newest_all; [done|].
    rewrite length_to_list. destruct Hq. lia.
  - rewrite shl_cons. simpl length in *.
    pose proof (push_queue_state b item Hq ltac:(lia)) as Hq'.
    assert (Ht' : tail_ (push Size b item) = tail_ b + 1).
    { destruct Hq. rewrite push_eq by done. simpl.
      apply wrap_small. lia. }
    destruct (IH (push Size b item) Hq' ltac:(lia)) as (Hq'' & Ht'' & Hl).
    split; [done|]. split; [lia|].
    rewrite Hl, to_list_push by (done || lia).
    pose proof (length_to_list b) as Hlen. destruct Hq as [Hd Hs Hh Ht].
    unfold full. destruct (Z.geb_spec (size_ b) Size) as [Hfull|Hroom].
    + unfold newest. rewrite <- app_assoc. simpl app.
      rewrite <- (drop_app_le (to_list Size b) (item :: rest) 1)
        by (rewrite Hlen; lia).
      rewrite drop_drop. f_equal.
      rewrite length_drop, !length_app, Hlen. simpl. lia.
    + by rewrite <- app_assoc.
Qed.

(** *** operator>> with a count *)

Lemma shr_count_loop_eq b it e Hrange :
  shr_count_loop b it e Hrange =
  Nat.iter (Z.to_nat (pos_ e - pos_ it)) pop b.
Proof.
  funelim (shr_count_loop b it e Hrange).
  - match goal with IH : shr_count_loop _ _ _ _ = Nat.iter _ _ _ |- _ =>
      rewrite IH end.
    rewrite <- Nat.iter_succ_r. f_equal.
    pose proof (proj1 (Z.ltb_lt _ _) Hlt) as Hlt'.
    pose proof Hrange as [Hlo Hhi]. simpl.
    rewrite wrap_small by lia. lia.
  - match goal with Hge : iter.lt _ _ = false |- _ =>
      pose proof (proj1 (Z.ltb_ge _ _) Hge) end.
    by replace (Z.to_nat (pos_ e - pos_ it)) with 0%nat by lia.
Qed.

Lemma shr_count_eq b (n : Z) :
  0 <= n < SIZE_MOD -> shr_count b n = Nat.iter (Z.to_nat n) pop b.
Proof.
  intros Hn. unfold shr_count. rewrite shr_count_loop_eq. simpl.
  by rewrite Z.add_0_l, wrap_to_difference, wrap_small, Z.sub_0_r.
Qed.

(** *** operator>> into a container *)

Lemma shr_array_loop_fst out_data : forall b,
  fst (shr_array_loop Size b out_data) = Nat.iter (length out_data) pop b.
Proof.
  induction out_data as [|x rest IH]; intros b; [done|].
  simpl shr_array_loop. specialize (IH (pop b)).
  destruct (shr_array_loop Size (pop b) rest) as [b2 rest'].
  simpl in *. by rewrite IH, <- Nat.iter_succ_r.
Qed.

Lemma shr_array_loop_snd out_data : forall b,
  0 <= size_ b < SIZE_MOD ->
  Z.of_nat (length out_data) <= size_ b ->
  snd (shr_array_loop Size b out_data) =
  take (length out_data) (to_list Size b).
Proof.
  induction out_data as [|x rest IH]; intros b Hs Hn; [done|].
  simpl length in *. simpl shr_array_loop.
  specialize (IH (pop b)).
  rewrite size_pop in IH by done.
  specialize (IH ltac:(lia) ltac:(lia)).
  destruct (shr_array_loop Size (pop b) rest) as [b2 rest'].
  simpl in *. rewrite (to_list_cons b) by lia. simpl.
  by rewrite IH.
Qed.

(** *** The capacity bound *)

Lemma size_bounded_push b item : size_bounded Size (push Size b item).
Proof.
  unfold size_bounded, push. simpl.
  pose proof (wrap_range (size_ b + 1)). lia.
Qed.

Lemma size_bounded_iter_pop (k : nat) b :
  size_bounded Size b -> size_bounded Size (Nat.iter k pop b).
Proof.
  unfold size_bounded. intros Hs. pose proof Size_lt_mod.
  rewrite iter_pop by lia. simpl. lia.
Qed.

Lemma size_bounded_update_head b p : size_bounded Size (update_head Size b p).
Proof.
  unfold size_bounded. rewrite update_head_eq. simpl.
  pose proof (wrap_range (size_ b + wrap_distance Size b p)). lia.
Qed.

Lemma size_bounded_shl in_data : forall b,
  size_bounded Size b -> size_bounded Size (shl Size b in_data).
Proof.
  induction in_data as [|item rest IH]; intros b Hs; [done|].
  rewrite shl_cons. apply IH, size_bounded_push.
Qed.

Lemma size_bounded_apply b (op : operation T) :
  size_bounded Size b -> size_bounded Size (apply_operation Size b op).
Proof.
  intros Hs. destruct op as [item| | |p|in_data|n|out_data]; simpl.
  - apply size_bounded_push.
  - by apply (size_bounded_iter_pop 1).
  - unfold size_bounded. simpl. lia.
  - apply size_bounded_update_head.
  - by apply size_bounded_shl.
  - unfold shr_count. rewrite shr_count_loop_eq.
    by apply size_bounded_iter_pop.
  - unfold shr_array. destruct (_ <? _); [done|].
    rewrite shr_array_loop_fst. by apply size_bounded_iter_pop.
Qed.

Lemma size_bounded_run ops : forall b,
  size_bounded Size b -> size_bounded Size (run Size b ops).
Proof.
  induction ops as [|op ops IH]; intros b Hs; [done|].
  simpl. apply IH. by apply size_bounded_apply.
Qed.

(** *** The iterator loop *)

(** The range-based [for] visits the positions from [it] up to [e]. *)
Lemma range_for_eq b it e Hrange :
  range_for Size b it e Hrange =
  (fun pos => deref Size b (Build_iterator pos))
    <$> seqZ (pos_ it) (pos_ e - pos_ it).
Proof.
  funelim (range_for Size b it e Hrange).
  - match goal with IH : range_for _ _ _ _ _ = _ |- _ => rewrite IH end.
    pose proof (proj1 (negb_true_iff _) Hne) as Hne'.
    apply Z.eqb_neq in Hne'. destruct it as [p], e as [q]; simpl in *.
    rewrite wrap_small by lia.
    rewrite (seqZ_cons p) by lia. rewrite fmap_cons.
    replace (Z.succ p) with (p + 1) by lia.
    by replace (Z.pred (q - p)) with (q - (p + 1)) by lia.
  - match goal with Heq : iter.neq _ _ = false |- _ =>
      pose proof (proj1 (negb_false_iff _) Heq) as Heq' end.
    apply Z.eqb_eq in Heq'. by rewrite seqZ_nil by lia.
Qed.

Lemma range_for_to_list b Hrange :
  range_for Size b (begin b) (end_ b) Hrange = to_list Size b.
Proof. rewrite range_for_eq. simpl. by rewrite Z.sub_0_r. Qed.

(** *** operator== *)

Section Comparison.

Context `{!EqDecision T}.

(** Once [res] is [false] it stays [false]. *)
Lemma eq_array_loop_false b it (in_data : list T) :
  eq_array_loop Size b false it in_data = false.
Proof.
  revert it. induction in_data as [|x rest IH]; intros it; [done|].
  apply IH.
Qed.

(** Started from [true], the loop compares [in_data] with the elements
    at the next [in_data.size()] positions, whether or not they are
    below [size_]. *)
Lemma eq_array_loop_true b (in_data : list T) : forall it,
  0 <= pos_ it ->
  pos_ it + Z.of_nat (length in_data) < SIZE_MOD ->
  eq_array_loop Size b true it in_data = true <->
  in_data = (fun pos => deref Size b (Build_iterator pos))
              <$> seqZ (pos_ it) (Z.of_nat (length in_data)).
Proof.
  induction in_data as [|x rest IH]; intros [p] Hp Hov; simpl pos_ in *.
  - done.
  - change (length (x :: rest)) with (S (length rest)) in *.
    simpl eq_array_loop.
    rewrite (seqZ_cons p) by lia. rewrite fmap_cons.
    replace (Z.pred (Z.of_nat (S (length rest))))
      with (Z.of_nat (length rest)) by lia.
    replace (Z.succ p) with (p + 1) by lia.
    destruct (decide (x = deref Size b (Build_iterator p))) as [E|E].
    + rewrite bool_decide_eq_true_2 by done.
      rewrite IH by (simpl; rewrite wrap_small by lia; lia).
      simpl. rewrite wrap_small by lia. split.
      * intros Hrest. by rewrite E, Hrest at 1.
      * intros Hcons. by injection Hcons.
    + rewrite bool_decide_eq_false_2 by done.
      rewrite eq_array_loop_false. split; [done|].
      intros Hcons. by injection Hcons.
Qed.

(** With [res] starting as [true], a sequence no longer than the
    content is accepted exactly when it is a prefix of the content. *)
Lemma eq_array_true_prefix b (in_data : list T) :
  0 <= size_ b < SIZE_MOD ->
  Z.of_nat (length in_data) <= size_ b ->
  eq_array Size true b in_data = true <->
  in_data = take (length in_data) (to_list Size b).
Proof.
  intros Hs Hn. unfold eq_array.
  rewrite eq_array_loop_true by (simpl; lia). simpl.
  unfold to_list. rewrite <- fmap_take.
  assert (Htake : take (length in_data) (seqZ 0 (size_ b))
                  = seqZ 0 (Z.of_nat (length in_data))).
  { replace (size_ b)
      with (Z.of_nat (length in_data)
            + (size_ b - Z.of_nat (length in_data))) by lia.
    rewrite seqZ_app by lia.
    by rewrite take_app_length' by (rewrite length_seqZ; lia). }
  by rewrite Htake.
Qed.

End Comparison.

End Properties.

(** * The repository's tests, replayed on the embedding *)

Module Tests.

(** [basic_push_pull]: five characters in, read with [front()] and
    popped one by one. *)
Example basic_push_pull :
  let buffer := shl 8 (construct (replicate 8 0)) (bytes "12345") in
  capacity 8 buffer = 8 /\ size buffer = 5 /\
  shr_array 8 buffer (replicate 5 0)
    = (Build_circular_buffer (bytes "12345" ++ [0; 0; 0]) 5 0,
       bytes "12345").
Proof. by vm_compute. Qed.

(** [basic_push_pull_mass]: iteration, then [buffer >> sz]. *)
Example basic_push_pull_mass :
  let buffer := shl 8 (construct (replicate 8 0)) (bytes "12345") in
  iter.diff (end_ buffer) (begin buffer) = 5 /\
  to_list 8 buffer = bytes "12345" /\
  size (shr_count buffer 5) = 0.
Proof. by vm_compute. Qed.

(** [basic_push_pull_overburn] and [basic_push_pull_mass_overburn]:
    sixteen characters into ten slots leave the last ten. *)
Example basic_push_pull_overburn :
  let buffer := shl 10 (shl 10 (construct (replicate 10 0))
                            (bytes "abcdefgh")) (bytes "ijklmnop") in
  size buffer = 10 /\ to_list 10 buffer = bytes "ghijklmnop" /\
  size (shr_count buffer 10) = 0.
Proof. by vm_compute. Qed.

(** [basic_push_pull_array]: two drains into arrays of 4 and 6. *)
Example basic_push_pull_array :
  let buffer := shl 10 (shl 10 (construct (replicate 10 0))
                            (bytes "abcdefgh")) (bytes "ijklmnop") in
  let (buffer1, ret1) := shr_array 10 buffer (replicate 4 0) in
  let (buffer2, ret2) := shr_array 10 buffer1 (replicate 6 0) in
  ret1 = bytes "ghij" /\ size buffer1 = 6 /\
  ret2 = bytes "klmnop" /\ size buffer2 = 0.
Proof. by vm_compute. Qed.

(** [basic_update_head]: the backing array is filled by [memcpy]. *)
Example basic_update_head :
  let buffer := update_head 10 (construct (bytes "abcdefghij")) 4 in
  let (buffer1, got1) := shr_array 10 buffer (replicate 4 0) in
  let buffer2 := update_head 10 buffer1 8 in
  let (buffer3, got2) := shr_array 10 buffer2 (replicate 4 0) in
  size buffer = 4 /\ got1 = bytes "abcd" /\ size buffer1 = 0 /\
  size buffer2 = 4 /\ got2 = bytes "efgh" /\ size buffer3 = 0.
Proof. by vm_compute. Qed.

(** [basic_update_head_overburn] *)
Example basic_update_head_overburn :
  let buffer := update_head 10 (construct (bytes "abcdefghij")) 8 in
  size buffer = 8 /\ to_list 10 buffer = bytes "abcdefgh" /\
  size (shr_count buffer 8) = 0.
Proof. by vm_compute. Qed.

(** [basic_boundary_test]: sixteen pushes fill the buffer, a
    seventeenth leaves [size()] at 16, sixteen pops empty it and one
    more pop leaves it empty. *)
Example basic_boundary_test :
  let filled := shl 16 (construct (replicate 16 0)) (seqZ 0 16) in
  (fun k => size (shl 16 (construct (replicate 16 0)) (seqZ 0 k)))
    <$> seqZ 1 16 = seqZ 1 16 /\
  size filled = capacity 16 filled /\
  size (push 16 filled 10) = capacity 16 filled /\
  (fun k => size (Nat.iter k pop (push 16 filled 10)))
    <$> seq 1 16 = rev (seqZ 0 16) /\
  size (Nat.iter 17 pop (push 16 filled 10)) = 0.
Proof. by vm_compute. Qed.

End Tests.

(** * The claims of the specification *)

(** Discharges the side condition on a concrete capacity. *)
Ltac capacity_ok := split; [ reflexivity | discriminate ].

(** ** Removal *)

(** C4. [pop()] takes exactly one off [size_] when the buffer is not
    empty and leaves the buffer as it is when it is empty: [size_] never
    goes below zero, nothing else changes, and popping an empty buffer
    leaves [size() == 0]. *)
Theorem pop_decrements_or_noop {T : Type} (b : circular_buffer T) :
  0 <= size b < SIZE_MOD ->
  (empty b = false -> size (pop b) = size b - 1) /\
  (empty b = true -> pop b = b /\ size (pop b) = 0) /\
  0 <= size (pop b) /\
  data_ (pop b) = data_ b /\ tail_ (pop b) = tail_ b.
Proof.
  unfold size, empty. intros Hs. split; [|split; [|split]].
  - intros He%Z.eqb_neq. by rewrite pop_nonempty by lia.
  - intros He%Z.eqb_eq. by rewrite pop_empty.
  - rewrite size_pop by done. lia.
  - done.
Qed.

Lemma pop_decrements_or_noop_witness :
  size (pop (Build_circular_buffer [7; 8; 9] 5 2)) = 1 /\
  pop (Build_circular_buffer [7; 8; 9] 5 0)
    = Build_circular_buffer [7; 8; 9] 5 0.
Proof.
  split.
  - apply (pop_decrements_or_noop (Build_circular_buffer [7; 8; 9] 5 2));
      [ split; [discriminate | reflexivity] | reflexivity ].
  - apply (pop_decrements_or_noop (Build_circular_buffer [7; 8; 9] 5 0));
      [ split; [discriminate | reflexivity] | reflexivity ].
Defined.

(** ** The DMA surface *)

(** C3. [mend()] is [begin()] advanced by
    [min(size, Capacity - head mod Capacity)], the length of the run of
    valid elements that is contiguous in the backing array; with
    [Capacity = 10] and 8 valid elements starting at slot 6 the run has
    length 4, not 8. *)
Theorem mend_contiguous_run :
  (forall (T : Type) (Size : Z) (b : circular_buffer T),
      0 < Size <= PTRDIFF_MAX -> 0 <= size b ->
      mend Size b =
        iter.plus (begin b) (Z.min (size b) (Size - head b mod Size)) /\
      iter.diff (mend Size b) (begin b) =
        Z.min (size b) (Size - head b mod Size)) /\
  (let b := shl 10 (shr_count (shl 10 (construct (replicate 10 0))
                                      [1; 2; 3; 4; 5; 6]) 6)
                [11; 12; 13; 14; 15; 16; 17; 18] in
   size b = 8 /\ head b mod 10 = 6 /\
   iter.diff (mend 10 b) (begin b) = 4).
Proof.
  split; [|by vm_compute].
  intros T Size b HS Hs. unfold mend, iter.plus, iter.add_assign, iter.diff.
  rewrite size_circle_end_eq by done. unfold size in *. simpl.
  pose proof (Z.mod_pos_bound (head b) Size ltac:(lia)) as Hm.
  pose proof (Size_lt_mod Size HS) as HS'.
  set (k := Z.min (size_ b) (Size - head b mod Size)).
  assert (Hk : 0 <= k <= Size) by lia.
  rewrite Z.sub_0_r, Z.add_0_l, (wrap_small k) by lia. split; [done|].
  unfold to_difference.
  assert (HM : SIZE_MOD = 2 * 2 ^ 63) by reflexivity.
  rewrite Z.mod_small by lia. lia.
Qed.

Lemma mend_contiguous_run_witness :
  mend 10 (Build_circular_buffer (replicate 10 0) 14 8) = Build_iterator 4.
Proof.
  apply (proj1 mend_contiguous_run Z 10
           (Build_circular_buffer (replicate 10 0) 14 8));
    [ capacity_ok | discriminate ].
Defined.

(** C2. [update_head(p)] advances [tail_] and [size_] by the forward
    wrapping distance [d = (p mod Capacity - tail mod Capacity) mod
    Capacity], which lies in [0, Capacity), and then clamps [size_] to
    the capacity.  On a fresh buffer of capacity 10 whose backing bytes
    were written from outside, [update_head(4)] gives [size() == 4] with
    the first four backing bytes as content, and a following
    [update_head(8)] advances by 4 more. *)
Theorem update_head_advances_by_wrap_distance :
  (forall (T : Type) (Size : Z) (b : circular_buffer T) (p : Z),
      0 < Size <= PTRDIFF_MAX -> 0 <= size b <= Size ->
      let d := (p mod Size - tail b mod Size) mod Size in
      0 <= d < Size /\
      update_head Size b p =
        Build_circular_buffer (data_ b) (wrap (tail b + d))
                              (Z.min (size b + d) Size)) /\
  (let b0 := construct (bytes "abcdefghij") in
   let b1 := update_head 10 b0 4 in
   let b2 := update_head 10 b1 8 in
   size b1 = 4 /\ to_list 10 b1 = take 4 (storage b0) /\
   to_list 10 b1 = bytes "abcd" /\
   tail b2 = tail b1 + 4 /\ size b2 = size b1 + 4 /\
   to_list 10 b2 = bytes "abcdefgh" /\
   to_list 10 (update_head 10 (shr_count b1 4) 8) = bytes "efgh").
Proof.
  split; [|by vm_compute].
  intros T Size b p HS Hs d. unfold size, tail in *.
  pose proof (wrap_distance_range Size HS b p) as Hd.
  change (wrap_distance Size b p) with d in Hd.
  split; [done|].
  rewrite update_head_eq by done. change (wrap_distance Size b p) with d.
  pose proof (Size_lt_mod Size HS).
  by rewrite (wrap_small (size_ b + d)) by lia.
Qed.

Lemma update_head_advances_by_wrap_distance_witness :
  update_head 10 (Build_circular_buffer (bytes "abcdefghij") 8 3) 2 =
  Build_circular_buffer (bytes "abcdefghij") 12 7.
Proof.
  apply (proj1 update_head_advances_by_wrap_distance Z 10
           (Build_circular_buffer (bytes "abcdefghij") 8 3) 2);
    [ capacity_ok | split; discriminate ].
Defined.

(** A call of [update_head] leaves a buffer as it is exactly when the
    wrapping distance is zero. *)
Lemma update_head_fixed {T : Type} (Size : Z) (b : circular_buffer T)
    (p : Z) :
  0 < Size <= PTRDIFF_MAX ->
  0 <= tail_ b < SIZE_MOD -> 0 <= size_ b <= Size ->
  update_head Size b p = b <-> wrap_distance Size b p = 0.
Proof.
  intros HS Ht Hs. rewrite update_head_eq by done.
  pose proof (wrap_distance_range Size HS b p) as Hd.
  pose proof (Size_lt_mod Size HS) as HS'.
  set (d := wrap_distance Size b p) in *.
  split.
  - destruct b as [dat t s]; simpl in *. intros E.
    injection E as Et _.
    destruct (decide (t + d < SIZE_MOD)) as [Hlt|Hge].
    + rewrite wrap_small in Et by lia. lia.
    + rewrite wrap_overflow in Et by lia. lia.
  - intros ->. destruct b as [dat t s]; simpl in *.
    rewrite !Z.add_0_r, !wrap_small by lia. f_equal. lia.
Qed.

(** Subtracting [SIZE_MOD] keeps the slot exactly when the capacity
    divides [SIZE_MOD]. *)
Lemma slot_after_overflow (Size x : Z) :
  0 < Size ->
  (x - SIZE_MOD) mod Size = x mod Size <-> SIZE_MOD mod Size = 0.
Proof.
  intros HS. split.
  - intros E.
    replace SIZE_MOD with (x - (x - SIZE_MOD)) at 1 by lia.
    rewrite Zminus_mod, E, Z.sub_diag. apply Z.mod_0_l. lia.
  - intros E. rewrite Zminus_mod, E, Z.sub_0_r. apply Z.mod_mod. lia.
Qed.

(** C10, as the code has it.  Calling [update_head(p)] twice leaves the
    buffer as one call does if and only if the first call does not
    carry [tail_] past [SIZE_MAX], or the capacity divides [2^64]: only
    then is the physical tail after the first call [p mod Capacity]. *)
Theorem update_head_idempotent_iff {T : Type} (Size : Z)
    (b : circular_buffer T) (p : Z) :
  0 < Size <= PTRDIFF_MAX ->
  0 <= tail b < SIZE_MOD -> 0 <= size b <= Size ->
  update_head Size (update_head Size b p) p = update_head Size b p <->
  tail b + wrap_distance Size b p < SIZE_MOD \/ SIZE_MOD mod Size = 0.
Proof.
  unfold tail, size. intros HS Ht Hs.
  pose proof (wrap_distance_range Size HS b p) as Hd.
  pose proof (Size_lt_mod Size HS) as HS'.
  pose proof (wrap_distance_reaches Size HS b p) as Hreach.
  pose proof (size_bounded_update_head Size HS b p) as Hs1.
  unfold size_bounded in Hs1.
  rewrite update_head_fixed;
    [ | done | rewrite update_head_eq by done; apply wrap_range | done ].
  assert (Ht1 : tail_ (update_head Size b p)
                = wrap (tail_ b + wrap_distance Size b p))
    by (by rewrite update_head_eq).
  split.
  - intros E. apply wrap_distance_zero_inv in E; [|done].
    rewrite Ht1 in E.
    destruct (decide (tail_ b + wrap_distance Size b p < SIZE_MOD))
      as [Hlt|Hge]; [by left|right].
    rewrite wrap_overflow, <- Hreach in E by lia.
    apply slot_after_overflow in E; [done | lia].
  - intros Hcase. apply wrap_distance_zero; [done|]. rewrite Ht1.
    destruct (decide (tail_ b + wrap_distance Size b p < SIZE_MOD))
      as [Hlt|Hge].
    + by rewrite wrap_small by lia.
    + destruct Hcase as [Hlt|Hdiv]; [lia|].
      rewrite wrap_overflow by lia.
      rewrite <- Hreach. by apply slot_after_overflow; [lia|].
Qed.

Lemma update_head_idempotent_iff_witness :
  let b := Build_circular_buffer (replicate 10 0) 8 3 in
  update_head 10 (update_head 10 b 2) 2 = update_head 10 b 2.
Proof.
  apply (update_head_idempotent_iff 10
           (Build_circular_buffer (replicate 10 0) 8 3) 2);
    [ capacity_ok | split; [discriminate | reflexivity]
    | split; discriminate | left; reflexivity ].
Defined.

(** C10, as the specification words it, fails where the tail counter
    overflows: with capacity 10 and [tail_ = SIZE_MAX] the first
    [update_head(7)] advances by 2 and wraps [tail_] to 1, whose slot is
    1 and not 7, so the second call advances by 6 more. *)
Lemma update_head_twice_differs_on_overflow :
  let b := Build_circular_buffer (replicate 10 0) SIZE_MAX 0 in
  update_head 10 b 7 = Build_circular_buffer (replicate 10 0) 1 2 /\
  update_head 10 (update_head 10 b 7) 7
    = Build_circular_buffer (replicate 10 0) 7 8 /\
  update_head 10 (update_head 10 b 7) 7 <> update_head 10 b 7.
Proof.
  vm_compute. split; [|split]; [reflexivity | reflexivity | discriminate].
Qed.

(** The state of that example is one the operations reach from a
    constructed buffer: [SIZE_MAX] pushes followed by [buffer >> 10]. *)
Lemma run_app {T : Type} `{!Inhabited T} (Size : Z) (b : circular_buffer T)
    (ops1 ops2 : list (operation T)) :
  run Size b (ops1 ++ ops2) = run Size (run Size b ops1) ops2.
Proof. apply fold_left_app. Qed.

Lemma run_pushes_of_zero (k : nat) :
  run 10 (construct (replicate 10 0)) (replicate k (OpPush 0)) =
  Build_circular_buffer (replicate 10 0) (wrap (Z.of_nat k))
                        (Z.min (Z.of_nat k) 10).
Proof.
  induction k as [|k IH]; [reflexivity|].
  rewrite (replicate_S_end k (OpPush 0)), run_app, IH.
  change (run 10 ?b [OpPush 0]) with (push 10 b 0).
  unfold push, data_store. cbn [data_ tail_ size_].
  rewrite insert_replicate, wrap_add_l.
  rewrite (wrap_small (Z.min (Z.of_nat k) 10 + 1))
    by (unfold SIZE_MOD; simpl; lia).
  f_equal; [f_equal|]; lia.
Qed.

Lemma run_pushes_then_drain (k : nat) :
  Z.of_nat k = SIZE_MAX ->
  run 10 (construct (replicate 10 0))
      (replicate k (OpPush 0) ++ [OpShrCount 10])
  = Build_circular_buffer (replicate 10 0) SIZE_MAX 0.
Proof.
  intros Hk. rewrite run_app, run_pushes_of_zero, Hk. reflexivity.
Qed.

Lemma overflow_state_reachable :
  exists k : nat,
    run 10 (construct (replicate 10 0))
        (replicate k (OpPush 0) ++ [OpShrCount 10])
    = Build_circular_buffer (replicate 10 0) SIZE_MAX 0.
Proof.
  destruct (Z_of_nat_complete SIZE_MAX) as [k Hk]; [discriminate|].
  exists k. by apply run_pushes_then_drain.
Qed.

(** ** Insertion and iteration *)

(** An empty buffer whose tail counter stays below [SIZE_MOD] while [n]
    more elements are written is in queue state; a freshly constructed
    or cleared buffer is one, for every [n] up to [SIZE_MAX]. *)
Lemma empty_queue_state {T : Type} (Size : Z) (b : circular_buffer T)
    (n : Z) :
  length (data_ b) = Z.to_nat Size -> 0 < Size ->
  empty b = true -> 0 <= tail b -> 0 <= n -> tail b + n < SIZE_MOD ->
  queue_state Size b.
Proof.
  unfold empty, tail. intros Hd HS He%Z.eqb_eq Ht Hn Hov.
  split; lia.
Qed.

Lemma overwrite_scenario {T : Type} `{!Inhabited T} (Size : Z)
    (b : circular_buffer T) (es : list T) (e : T) :
  0 < Size <= PTRDIFF_MAX ->
  length (data_ b) = Z.to_nat Size ->
  empty b = true -> 0 <= tail b -> tail b + Size + 1 < SIZE_MOD ->
  Z.of_nat (length es) = Size ->
  to_list Size (push Size (shl Size b es) e) = drop 1 es ++ [e].
Proof.
  intros HS Hd He Ht Hov Hlen.
  pose proof (empty_queue_state Size b (Size + 1) Hd ltac:(lia) He Ht
                ltac:(lia) ltac:(lia)) as Hq.
  rewrite <- shl_snoc.
  destruct (to_list_shl Size HS (es ++ [e]) b Hq) as (_ & _ & ->).
  { rewrite length_app. unfold tail in Hov. simpl. lia. }
  rewrite to_list_empty by (apply Z.eqb_eq in He; lia). simpl.
  unfold newest. rewrite length_app. simpl.
  replace (length es + 1 - Z.to_nat Size)%nat with 1%nat by lia.
  apply drop_app_le. lia.
Qed.

(** C1. On a full buffer [push(v)] stores [v] in slot
    [tail mod Capacity], advances [tail_] by one and leaves [size_] at
    the capacity, so that [head] advances by one and the oldest element
    leaves the content; after
    [Capacity] pushes [e0 .. e_{Capacity-1}] into an empty buffer and
    one more push of [e], iteration from [begin()] to [end()] yields
    [e1 .. e_{Capacity-1}, e].  The scenario is stated for the freshly
    constructed buffer and for every empty buffer whose tail counter
    stays below [2^64] during the pushes. *)
Theorem push_full_overwrites_oldest {T : Type} `{!Inhabited T} (Size : Z) :
  0 < Size <= PTRDIFF_MAX ->
  (forall (b : circular_buffer T) (v : T),
      size b = capacity Size b ->
      push Size b v =
        Build_circular_buffer
          (<[Z.to_nat (tail b mod Size) := v]> (data_ b))
          (wrap (tail b + 1)) (capacity Size b) /\
      head (push Size b v) = wrap (head b + 1)) /\
  (forall (mem es : list T) (e : T),
      length mem = Z.to_nat Size ->
      Z.of_nat (length es) = capacity Size (construct mem) ->
      to_list Size (push Size (shl Size (construct mem) es) e)
        = drop 1 es ++ [e]) /\
  (forall (b : circular_buffer T) (es : list T) (e : T),
      length (data_ b) = Z.to_nat Size ->
      empty b = true -> 0 <= tail b -> tail b + Size + 1 < SIZE_MOD ->
      Z.of_nat (length es) = capacity Size b ->
      to_list Size (push Size (shl Size b es) e) = drop 1 es ++ [e]) /\
  (forall (b : circular_buffer T) (v : T),
      size b = capacity Size b ->
      queue_state Size b -> tail b + 1 < SIZE_MOD ->
      to_list Size (push Size b v) = drop 1 (to_list Size b) ++ [v]).
Proof.
  unfold size, capacity. intros HS.
  pose proof (Size_lt_mod Size HS) as HS'.
  split; [|split; [|split]].
  - intros b v Hfull. unfold tail. rewrite push_eq by lia. split.
    + f_equal. lia.
    + unfold head. simpl. rewrite wrap_sub_l, wrap_add_l.
      f_equal. lia.
  - intros mem es e Hd Hlen.
    apply overwrite_scenario; try done. unfold tail. simpl. lia.
  - intros b es e Hd He Ht Hov Hlen. by apply overwrite_scenario.
  - intros b v Hfull Hq Hov. rewrite to_list_push by done.
    unfold full. by destruct (Z.geb_spec (size_ b) Size); [|lia].
Qed.

Lemma push_full_overwrites_oldest_witness :
  push 3 (Build_circular_buffer [1; 2; 3] 3 3) 4
    = Build_circular_buffer [4; 2; 3] 4 3 /\
  to_list 3 (push 3 (shl 3 (construct [0; 0; 0]) [1; 2; 3]) 4) = [2; 3; 4].
Proof.
  pose proof (push_full_overwrites_oldest (T := Z) 3 ltac:(capacity_ok))
    as (Hpush & Hscenario & _).
  split.
  - apply (Hpush (Build_circular_buffer [1; 2; 3] 3 3) 4). reflexivity.
  - apply (Hscenario [0; 0; 0] [1; 2; 3] 4); reflexivity.
Defined.

Lemma roundtrip_scenario {T : Type} `{!Inhabited T} (Size : Z)
    (b : circular_buffer T) (values : list T) :
  0 < Size <= PTRDIFF_MAX ->
  length (data_ b) = Z.to_nat Size ->
  empty b = true -> 0 <= tail b ->
  tail b + Z.of_nat (length values) < SIZE_MOD ->
  Z.of_nat (length values) <= Size ->
  to_list Size (shl Size b values) = values /\
  size (shl Size b values) = Z.of_nat (length values) /\
  size (Nat.iter (length values) pop (shl Size b values)) = 0.
Proof.
  unfold size. intros HS Hd He Ht Hov Hn.
  pose proof (empty_queue_state Size b (Z.of_nat (length values)) Hd
                ltac:(lia) He Ht ltac:(lia) Hov) as Hq.
  destruct (to_list_shl Size HS values b Hq Hov) as (Hq' & _ & Hl).
  rewrite (to_list_empty Size b) in Hl by (apply Z.eqb_eq in He; lia).
  simpl in Hl. rewrite newest_all in Hl by lia.
  pose proof (length_to_list Size (shl Size b values)) as Hlen.
  rewrite Hl in Hlen. destruct Hq' as [_ Hs' _ _].
  pose proof (Size_lt_mod Size HS).
  split; [done|]. split; [lia|].
  rewrite iter_pop by lia. simpl. lia.
Qed.

(** C7. Pushing [n <= Capacity] values into an empty buffer and
    iterating from [begin()] to [end()] yields those values in the order
    pushed; [n] calls of [pop()] then leave [size() == 0].  The
    iteration is the loop [for (it = begin(); it != end(); ++it)] over
    the two iterators of the buffer, whose positions are 0 and [n].
    Stated for the freshly constructed buffer and for every empty
    buffer whose tail counter stays below [2^64] during the pushes. *)
Theorem push_iterate_pop_roundtrip {T : Type} `{!Inhabited T} (Size : Z) :
  0 < Size <= PTRDIFF_MAX ->
  (forall (mem values : list T),
      length mem = Z.to_nat Size ->
      Z.of_nat (length values) <= capacity Size (construct mem) ->
      let b := shl Size (construct mem) values in
      (0 <= pos_ (begin b) <= pos_ (end_ b) /\ pos_ (end_ b) < SIZE_MOD) /\
      (forall Hrange,
          range_for Size b (begin b) (end_ b) Hrange = values) /\
      iter.diff (end_ b) (begin b) = Z.of_nat (length values) /\
      to_list Size b = values /\
      size b = Z.of_nat (length values) /\
      size (Nat.iter (length values) pop b) = 0) /\
  (forall (b0 : circular_buffer T) (values : list T),
      length (data_ b0) = Z.to_nat Size ->
      empty b0 = true -> 0 <= tail b0 ->
      tail b0 + Z.of_nat (length values) < SIZE_MOD ->
      Z.of_nat (length values) <= capacity Size b0 ->
      let b := shl Size b0 values in
      (0 <= pos_ (begin b) <= pos_ (end_ b) /\ pos_ (end_ b) < SIZE_MOD) /\
      (forall Hrange,
          range_for Size b (begin b) (end_ b) Hrange = values) /\
      iter.diff (end_ b) (begin b) = Z.of_nat (length values) /\
      to_list Size b = values /\
      size b = Z.of_nat (length values) /\
      size (Nat.iter (length values) pop b) = 0).
Proof.
  intros HS. pose proof (Size_lt_mod Size HS) as HS'.
  assert (Hgen : forall (b0 : circular_buffer T) (values : list T),
             length (data_ b0) = Z.to_nat Size ->
             empty b0 = true -> 0 <= tail b0 ->
             tail b0 + Z.of_nat (length values) < SIZE_MOD ->
             Z.of_nat (length values) <= Size ->
             let b := shl Size b0 values in
             (0 <= pos_ (begin b) <= pos_ (end_ b)
              /\ pos_ (end_ b) < SIZE_MOD) /\
             (forall Hrange,
                 range_for Size b (begin b) (end_ b) Hrange = values) /\
             iter.diff (end_ b) (begin b) = Z.of_nat (length values) /\
             to_list Size b = values /\
             size b = Z.of_nat (length values) /\
             size (Nat.iter (length values) pop b) = 0).
  { intros b0 values Hd He Ht Hov Hn b.
    destruct (roundtrip_scenario Size b0 values HS Hd He Ht Hov Hn)
      as (Hl & Hs & Hp).
    fold b in Hl, Hs, Hp. unfold size in Hs.
    assert (HP : PTRDIFF_MAX = 2 ^ 63 - 1) by reflexivity.
    split; [simpl; lia|].
    split; [intros Hrange; by rewrite range_for_to_list|].
    split; [|done].
    unfold iter.diff. simpl. rewrite Z.sub_0_r, Hs, wrap_small by lia.
    assert (HM : SIZE_MOD = 2 * 2 ^ 63) by reflexivity.
    unfold to_difference. rewrite Z.mod_small by lia. lia. }
  split.
  - intros mem values Hd Hn. unfold capacity in Hn.
    apply Hgen; try done. unfold tail. simpl. lia.
  - intros b0 values Hd He Ht Hov Hn. by apply Hgen.
Qed.

Lemma push_iterate_pop_roundtrip_witness :
  let b := shl 8 (construct (replicate 8 0)) (bytes "12345") in
  exists Hrange,
    range_for 8 b (begin b) (end_ b) Hrange = bytes "12345" /\
    size (Nat.iter 5 pop b) = 0.
Proof.
  pose proof (proj1 (push_iterate_pop_roundtrip (T := Z) 8
                       ltac:(capacity_ok))
                (replicate 8 0) (bytes "12345")
                ltac:(reflexivity) ltac:(discriminate))
    as (Hrange & Hloop & _ & _ & _ & Hpop).
  exists Hrange. split; [exact (Hloop Hrange) | exact Hpop].
Defined.

(** The bound on the tail counter in the second parts of C1 and C7
    cannot be dropped for a capacity that does not divide [2^64]: when
    [tail_] passes [SIZE_MAX] the slot jumps from [SIZE_MAX mod Size] to
    0.  With capacity 10 and [tail_ = SIZE_MAX - 2] the pushes go to the
    slots 3, 4, 5, 0, 1, 2, 3, so the seventh overwrites the first. *)
Remark roundtrip_needs_tail_bound :
  let b := Build_circular_buffer (replicate 10 0) (SIZE_MAX - 2) 0 in
  shl 10 b [1; 2; 3; 4; 5; 6; 7]
    = Build_circular_buffer [4; 5; 6; 7; 2; 3; 0; 0; 0; 0] 4 7 /\
  to_list 10 (shl 10 b [1; 2; 3; 4; 5; 6; 7]) = [7; 2; 3; 4; 5; 6; 7].
Proof. by vm_compute. Qed.

(** ** Bulk operators *)

(** C9. [buffer >> n] leaves the buffer in the state that [n] calls of
    [pop()] leave it in: the [n] oldest elements are gone, and once the
    buffer is empty the remaining iterations change nothing. *)
Theorem shr_count_is_repeated_pop {T : Type} `{!Inhabited T} (Size : Z)
    (b : circular_buffer T) (n : Z) :
  0 <= n < SIZE_MOD -> 0 <= size b < SIZE_MOD ->
  shr_count b n = Nat.iter (Z.to_nat n) pop b /\
  to_list Size (shr_count b n) = drop (Z.to_nat n) (to_list Size b) /\
  size (shr_count b n) = Z.max 0 (size b - n) /\
  (size b <= n -> shr_count b n = Nat.iter (Z.to_nat (size b)) pop b).
Proof.
  unfold size. intros Hn Hs. rewrite shr_count_eq by done.
  split; [done|]. split; [by apply to_list_iter_pop|].
  rewrite !iter_pop by done. simpl. split; [f_equal; lia|].
  intros Hle. f_equal. lia.
Qed.

Lemma shr_count_is_repeated_pop_witness :
  shr_count (Build_circular_buffer (bytes "abcd") 6 3) 5
    = Build_circular_buffer (bytes "abcd") 6 0 /\
  to_list 4 (shr_count (Build_circular_buffer (bytes "abcd") 6 3) 2)
    = bytes "b".
Proof.
  assert (Hsize : 0 <= 3 < SIZE_MOD)
    by (split; discriminate || reflexivity).
  split.
  - assert (Hn : 0 <= 5 < SIZE_MOD)
      by (split; discriminate || reflexivity).
    exact (proj1 (shr_count_is_repeated_pop 4
                    (Build_circular_buffer (bytes "abcd") 6 3) 5 Hn Hsize)).
  - assert (Hn : 0 <= 2 < SIZE_MOD)
      by (split; discriminate || reflexivity).
    exact (proj1 (proj2 (shr_count_is_repeated_pop 4
                    (Build_circular_buffer (bytes "abcd") 6 3) 2 Hn Hsize))).
Defined.

(** C5. [buffer >> seq] is all or nothing.  When the buffer holds at
    least [seq.size()] elements, [seq] receives that many oldest
    elements in head-to-tail order and the buffer loses them ([size_]
    goes down by [seq.size()]); when it holds fewer, buffer and
    container are returned as they were. *)
Theorem shr_array_all_or_nothing {T : Type} `{!Inhabited T} (Size : Z)
    (b : circular_buffer T) (out_data : list T) :
  0 <= size b < SIZE_MOD ->
  let n := Z.of_nat (length out_data) in
  (n <= size b ->
     shr_array Size b out_data =
       (Build_circular_buffer (data_ b) (tail_ b) (size b - n),
        take (length out_data) (to_list Size b)) /\
     to_list Size (fst (shr_array Size b out_data))
       = drop (length out_data) (to_list Size b)) /\
  (size b < n -> shr_array Size b out_data = (b, out_data)).
Proof.
  intros Hs n. subst n. unfold shr_array, size in *. split.
  - intros Hn.
    destruct (Z.ltb_spec (size_ b) (Z.of_nat (length out_data)))
      as [Hlt|_]; [lia|].
    pose proof (shr_array_loop_fst Size out_data b) as Hfst.
    pose proof (shr_array_loop_snd Size out_data b Hs Hn) as Hsnd.
    destruct (shr_array_loop Size b out_data) as [b' out']. simpl in *.
    subst b' out'. split.
    + f_equal. rewrite iter_pop by done. f_equal. lia.
    + by apply to_list_iter_pop.
  - intros Hn.
    by destruct (Z.ltb_spec (size_ b) (Z.of_nat (length out_data)))
      as [_|Hge]; [|lia].
Qed.

Lemma shr_array_all_or_nothing_witness :
  shr_array 4 (Build_circular_buffer (bytes "abcd") 6 3) [0; 0]
    = (Build_circular_buffer (bytes "abcd") 6 1, bytes "da") /\
  shr_array 4 (Build_circular_buffer (bytes "abcd") 6 3) [0; 0; 0; 0]
    = (Build_circular_buffer (bytes "abcd") 6 3, [0; 0; 0; 0]).
Proof.
  split.
  - apply (shr_array_all_or_nothing 4
             (Build_circular_buffer (bytes "abcd") 6 3) [0; 0]);
      [ split; discriminate || reflexivity | discriminate ].
  - apply (shr_array_all_or_nothing 4
             (Build_circular_buffer (bytes "abcd") 6 3) [0; 0; 0; 0]);
      [ split; discriminate || reflexivity | reflexivity ].
Defined.

(** ** The capacity bound *)

(** C8. [size() <= Capacity] holds in the freshly constructed buffer,
    is kept by [push], [pop], [clear], [update_head], [<<] and both
    [>>], and so holds after every sequence of calls. *)
Theorem size_never_exceeds_capacity {T : Type} `{!Inhabited T} (Size : Z) :
  0 < Size <= PTRDIFF_MAX ->
  (forall (b : circular_buffer T) (op : operation T),
      0 <= size b <= capacity Size b ->
      0 <= size (apply_operation Size b op) <= capacity Size b) /\
  (forall (mem : list T) (ops : list (operation T)),
      0 <= size (run Size (construct mem) ops)
        <= capacity Size (construct mem)).
Proof.
  intros HS. split.
  - intros b op Hs. by apply size_bounded_apply.
  - intros mem ops.
    apply (size_bounded_run Size HS ops (construct mem)).
    unfold size_bounded. simpl. lia.
Qed.

Lemma size_never_exceeds_capacity_witness :
  0 <= size (run 4 (construct (replicate 4 0))
               [OpShl (bytes "abcdef"); OpPop; OpUpdateHead 1;
                OpShrCount 2; OpPush 7; OpShrArray [0; 0]; OpClear;
                OpPush 9]) <= 4.
Proof.
  apply (proj2 (size_never_exceeds_capacity (T := Z) 4 ltac:(capacity_ok))
           (replicate 4 0)).
Defined.

(** ** Comparison *)

(** C6, evaluated.  [operator==] starts from whatever the
    uninitialised [res] holds and walks the supplied sequence only, so
    its result is not "the content equals the sequence": on a buffer
    holding 1, 2 it answers [true] for the sequence 1 when [res] starts
    as [true], [false] for the sequence 1, 2 when [res] starts as
    [false], and [res] itself for the empty sequence. *)
Theorem eq_array_not_content_equality :
  let b := shl 4 (construct (replicate 4 0)) [1; 2] in
  to_list 4 b = [1; 2] /\
  eq_array 4 true b [1] = true /\
  eq_array 4 false b [1; 2] = false /\
  (forall res, eq_array 4 res b [] = res) /\
  (forall res, ~ (forall in_data,
                     eq_array 4 res b in_data = true <->
                     to_list 4 b = in_data)).
Proof.
  simpl. repeat split.
  intros [] Hiff.
  - by pose proof (proj1 (Hiff [1]) eq_refl).
  - by pose proof (proj2 (Hiff [1; 2]) eq_refl).
Qed.

(** * Further properties of the code *)

Section More.

Context {T : Type} `{!Inhabited T}.
Variable Size : Z.
Hypothesis Size_range : 0 < Size <= PTRDIFF_MAX.

Implicit Types (b : circular_buffer T) (item : T).

(** *** The window of a buffer in queue state *)

Lemma slots_app (d : list T) (start n1 n2 : Z) :
  0 <= n1 -> 0 <= n2 ->
  slots Size d start (n1 + n2)
  = slots Size d start n1 ++ slots Size d (start + n1) n2.
Proof.
  intros H1 H2. unfold slots. by rewrite seqZ_app, fmap_app by done.
Qed.

Lemma length_slots (d : list T) (start len : Z) :
  length (slots Size d start len) = Z.to_nat len.
Proof. unfold slots. by rewrite length_fmap, length_seqZ. Qed.

Lemma drop_slots (k : nat) (d : list T) (start len : Z) :
  Z.of_nat k <= len ->
  drop k (slots Size d start len)
  = slots Size d (start + Z.of_nat k) (len - Z.of_nat k).
Proof.
  intros Hk.
  replace len with (Z.of_nat k + (len - Z.of_nat k)) at 1 by lia.
  rewrite slots_app by lia.
  by rewrite drop_app_length' by (rewrite length_slots; lia).
Qed.

Lemma take_slots (k : nat) (d : list T) (start len : Z) :
  Z.of_nat k <= len ->
  take k (slots Size d start len) = slots Size d start (Z.of_nat k).
Proof.
  intros Hk.
  replace len with (Z.of_nat k + (len - Z.of_nat k)) at 1 by lia.
  rewrite slots_app by lia.
  by rewrite take_app_length' by (rewrite length_slots; lia).
Qed.

(** In queue state the content is the window [tail_ - size_, tail_). *)
Lemma to_list_slots b :
  queue_state Size b ->
  to_list Size b = slots Size (data_ b) (tail_ b - size_ b) (size_ b).
Proof.
  intros [Hd Hs Hh Ht]. unfold to_list, slots.
  replace (seqZ (tail_ b - size_ b) (size_ b))
    with (Z.add (tail_ b - size_ b) <$> seqZ 0 (size_ b))
    by (rewrite fmap_add_seqZ; f_equal; lia).
  rewrite <- list_fmap_compose.
  apply list_fmap_ext. intros k pos Hk.
  apply lookup_seqZ in Hk as [-> Hk].
  unfold deref, at_index, data, head. simpl.
  rewrite wrap_add_l, wrap_small by lia. same_slot.
Qed.

(** *** Sizes *)

Lemma size_shl (in_data : list T) : forall b,
  0 <= size_ b <= Size ->
  size_ (shl Size b in_data)
  = Z.min (size_ b + Z.of_nat (length in_data)) Size.
Proof.
  induction in_data as [|item rest IH]; intros b Hs.
  - simpl. lia.
  - rewrite shl_cons, IH by (rewrite push_eq by done; simpl; lia).
    rewrite push_eq by done. simpl length. simpl size_. lia.
Qed.

Lemma pop_queue_state b : queue_state Size b -> queue_state Size (pop b).
Proof.
  intros [Hd Hs Hh Ht]. pose proof (Size_lt_mod Size Size_range).
  destruct (decide (size_ b = 0)) as [E|E].
  - rewrite pop_empty by done. by split.
  - rewrite pop_nonempty by lia. split; simpl; lia || done.
Qed.

Lemma iter_pop_queue_state (k : nat) b :
  queue_state Size b -> queue_state Size (Nat.iter k pop b).
Proof.
  intros Hq. induction k as [|k IH]; [done|].
  simpl. by apply pop_queue_state.
Qed.

End More.

(** ** Bulk insertion *)

(** X1. In queue state, and as long as the tail counter does not pass
    [SIZE_MAX], [buffer << in_data] leaves the newest [Capacity]
    elements of the old content followed by [in_data], in order: what
    does not fit is given up from the old end. *)
Theorem shl_keeps_newest {T : Type} `{!Inhabited T} (Size : Z)
    (b : circular_buffer T) (in_data : list T) :
  0 < Size <= PTRDIFF_MAX ->
  queue_state Size b ->
  tail b + Z.of_nat (length in_data) < SIZE_MOD ->
  to_list Size (shl Size b in_data)
    = newest (Z.to_nat Size) (to_list Size b ++ in_data) /\
  tail (shl Size b in_data) = tail b + Z.of_nat (length in_data) /\
  queue_state Size (shl Size b in_data).
Proof.
  intros HS Hq Hov.
  destruct (to_list_shl Size HS in_data b Hq Hov) as (Hq' & Ht & Hl).
  done.
Qed.

Lemma shl_keeps_newest_witness :
  to_list 4 (shl 4 (Build_circular_buffer [1; 2; 3; 0] 3 3) [4; 5; 6])
  = [3; 4; 5; 6].
Proof.
  apply (shl_keeps_newest 4 (Build_circular_buffer [1; 2; 3; 0] 3 3)
           [4; 5; 6]);
    [ capacity_ok | split; (reflexivity || (split; discriminate)
                            || discriminate) | reflexivity ].
Defined.

(** X2. In every state within the capacity, [size()] after
    [buffer << in_data] is [min(size() + in_data.size(), Capacity)]; so
    once at least [Capacity - size()] elements are written the buffer
    is [full()]. *)
Theorem shl_size {T : Type} (Size : Z) (b : circular_buffer T)
    (in_data : list T) :
  0 < Size <= PTRDIFF_MAX ->
  0 <= size b <= Size ->
  size (shl Size b in_data)
    = Z.min (size b + Z.of_nat (length in_data)) Size /\
  (Size <= size b + Z.of_nat (length in_data) ->
   full Size (shl Size b in_data) = true).
Proof.
  unfold size, full. intros HS Hs.
  pose proof (size_shl Size HS in_data b Hs) as E.
  split; [done|]. intros Hn. rewrite E. apply Z.geb_le. lia.
Qed.

Lemma shl_size_witness :
  size (shl 4 (Build_circular_buffer [1; 2; 3; 0] 3 3) [4; 5; 6]) = 4.
Proof.
  apply (shl_size 4 (Build_circular_buffer [1; 2; 3; 0] 3 3) [4; 5; 6]);
    [ capacity_ok | split; discriminate ].
Defined.

(** ** Access to the ends *)

(** X3. On a buffer that is not empty, [front()] is the first and
    [back()] the last element that iteration from [begin()] to [end()]
    meets. *)
Theorem front_back_are_ends {T : Type} `{!Inhabited T} (Size : Z)
    (b : circular_buffer T) :
  0 < size b < SIZE_MOD ->
  to_list Size b !! 0%nat = Some (front Size b) /\
  last (to_list Size b) = Some (back Size b).
Proof.
  unfold size. intros Hs. split.
  - by rewrite to_list_cons by done.
  - unfold to_list.
    replace (size_ b) with ((size_ b - 1) + 1) at 1 by lia.
    rewrite seqZ_app by lia.
    replace (seqZ (0 + (size_ b - 1)) 1) with [size_ b - 1]
      by (rewrite seqZ_cons, seqZ_nil by lia; f_equal; lia).
    rewrite fmap_app. cbn [fmap list_fmap]. rewrite last_snoc. f_equal.
    unfold deref, at_index, back, data, head. simpl.
    rewrite wrap_add_l. same_slot.
Qed.

Lemma front_back_are_ends_witness :
  let b := Build_circular_buffer (bytes "abcd") 6 3 in
  to_list 4 b !! 0%nat = Some (front 4 b) /\
  last (to_list 4 b) = Some (back 4 b).
Proof.
  apply (front_back_are_ends 4 (Build_circular_buffer (bytes "abcd") 6 3)).
  split; reflexivity.
Defined.

(** X4. After [push(v)], [back()] is [v], in every state, whatever the
    tail counter is.  If the buffer was in queue state, neither empty
    nor full, [front()] is what it was. *)
Theorem push_back_and_front {T : Type} `{!Inhabited T} (Size : Z)
    (b : circular_buffer T) (v : T) :
  0 < Size <= PTRDIFF_MAX ->
  length (data_ b) = Z.to_nat Size ->
  0 <= tail b < SIZE_MOD ->
  back Size (push Size b v) = v /\
  (queue_state Size b -> 0 < size b < Size -> tail b + 1 < SIZE_MOD ->
   front Size (push Size b v) = front Size b).
Proof.
  unfold tail, size. intros HS Hd Ht. split.
  - unfold back, push, data, data_store. simpl.
    rewrite wrap_sub_l. replace (tail_ b + 1 - 1) with (tail_ b) by lia.
    rewrite wrap_small by done. by apply (data_push_new Size HS).
  - intros [_ Hs Hh _] Hne Hov. rewrite push_eq by done.
    unfold front, head, data. simpl.
    rewrite (wrap_small (tail_ b + 1)) by lia.
    replace (Z.min (size_ b + 1) Size) with (size_ b + 1) by lia.
    replace (tail_ b + 1 - (size_ b + 1)) with (tail_ b - size_ b) by lia.
    rewrite wrap_small by lia. apply (data_push_old Size HS); [done | lia].
Qed.

Lemma push_back_and_front_witness :
  back 10 (push 10 (Build_circular_buffer (replicate 10 0) SIZE_MAX 10) 7)
  = 7.
Proof.
  exact (proj1 (push_back_and_front 10
                  (Build_circular_buffer (replicate 10 0) SIZE_MAX 10) 7
                  ltac:(capacity_ok) ltac:(reflexivity)
                  ltac:(split; [discriminate | reflexivity]))).
Defined.

(** ** clear *)

(** X5. [clear()] leaves the backing array as it is and an empty
    buffer, and it restarts the queue from any state, also one the
    tail counter has overflowed in: up to [Capacity] values pushed
    after it are met by iteration in the order pushed. *)
Theorem clear_restarts_queue {T : Type} `{!Inhabited T} (Size : Z)
    (b : circular_buffer T) (values : list T) :
  0 < Size <= PTRDIFF_MAX ->
  length (data_ b) = Z.to_nat Size ->
  Z.of_nat (length values) <= Size ->
  data_ (clear b) = data_ b /\
  empty (clear b) = true /\
  to_list Size (clear b) = [] /\
  to_list Size (shl Size (clear b) values) = values.
Proof.
  intros HS Hd Hn. pose proof (Size_lt_mod Size HS) as HS'.
  split; [done|]. split; [done|]. split; [done|].
  apply roundtrip_scenario; try done. unfold tail. simpl. lia.
Qed.

Lemma clear_restarts_queue_witness :
  let b := Build_circular_buffer [4; 5; 6; 7; 2; 3; 0; 0; 0; 0] 4 7 in
  to_list 10 (shl 10 (clear b) [1; 2; 3; 4; 5; 6; 7])
  = [1; 2; 3; 4; 5; 6; 7].
Proof.
  apply (clear_restarts_queue 10
           (Build_circular_buffer [4; 5; 6; 7; 2; 3; 0; 0; 0; 0] 4 7)
           [1; 2; 3; 4; 5; 6; 7]);
    [ capacity_ok | reflexivity | discriminate ].
Defined.

(** ** Indexing *)

(** X6. [operator[]] is not checked against [size()]: as long as the
    logical position stays below [2^64], [operator[](i + Capacity)]
    reads the slot that [operator[](i)] reads; so [operator[](Capacity)],
    one past the end of a full buffer, returns [front()]. *)
Theorem at_index_out_of_range_wraps {T : Type} `{!Inhabited T} (Size : Z)
    (b : circular_buffer T) (i : Z) :
  0 < Size <= PTRDIFF_MAX ->
  0 <= i ->
  head b + i + Size < SIZE_MOD ->
  at_index Size b (i + Size) = at_index Size b i /\
  at_index Size b Size = front Size b.
Proof.
  intros HS Hi Hov.
  pose proof (wrap_range (tail_ b - size_ b)) as Hh. fold (head b) in Hh.
  unfold at_index, front, data. split.
  - rewrite !wrap_small by lia.
    replace (head b + (i + Size)) with (head b + i + 1 * Size) by lia.
    by rewrite Z_mod_plus_full.
  - rewrite wrap_small by lia.
    replace (head b + Size) with (head b + 1 * Size) by lia.
    by rewrite Z_mod_plus_full.
Qed.

Lemma at_index_out_of_range_wraps_witness :
  let b := Build_circular_buffer (bytes "abcd") 7 4 in
  at_index 4 b (1 + 4) = at_index 4 b 1 /\
  at_index 4 b (size b) = front 4 b.
Proof.
  exact (at_index_out_of_range_wraps 4
           (Build_circular_buffer (bytes "abcd") 7 4) 1
           ltac:(capacity_ok) ltac:(discriminate) ltac:(reflexivity)).
Defined.

(** ** Iterators *)

Lemma to_difference_small x :
  - 2 ^ 63 <= x < 2 ^ 63 -> to_difference x = x.
Proof.
  intros Hx. unfold to_difference.
  assert (HM : SIZE_MOD = 2 * 2 ^ 63) by reflexivity.
  rewrite Z.mod_small by lia. lia.
Qed.

Lemma to_difference_wrap x : to_difference (wrap x) = to_difference x.
Proof. unfold to_difference, wrap. by rewrite Zplus_mod_idemp_l. Qed.

(** X7. Iterator arithmetic inverts itself on [size_t] positions:
    [(it + n) - n] is [it], [(it + n) - it] is [n], and [++] and [--]
    undo each other, also where the position wraps at 0 or
    [SIZE_MAX]. *)
Theorem iterator_arithmetic_inverts (it : circular_buffer_iterator) (n : Z) :
  0 <= pos_ it < SIZE_MOD ->
  - PTRDIFF_MAX <= n <= PTRDIFF_MAX ->
  iter_ops.minus (iter.plus it n) n = it /\
  iter.diff (iter.plus it n) it = n /\
  iter_ops.decr (iter.incr it) = it /\
  iter.incr (iter_ops.decr it) = it.
Proof.
  destruct it as [p]. simpl. intros Hp Hn.
  assert (HP : PTRDIFF_MAX = 2 ^ 63 - 1) by reflexivity.
  assert (Hn' : - 2 ^ 63 <= n < 2 ^ 63) by lia.
  unfold iter_ops.minus, iter_ops.sub_assign, iter.plus, iter.add_assign,
    iter.diff, iter_ops.decr, iter.incr. simpl.
  repeat split.
  - f_equal. rewrite to_difference_small by lia.
    rewrite wrap_add_l. replace (p + n + - n) with p by lia.
    by apply wrap_small.
  - rewrite wrap_sub_l. replace (p + n - p) with n by lia.
    rewrite to_difference_wrap. by apply to_difference_small.
  - f_equal. rewrite wrap_sub_l. replace (p + 1 - 1) with p by lia.
    by apply wrap_small.
  - f_equal. rewrite wrap_add_l. replace (p - 1 + 1) with p by lia.
    by apply wrap_small.
Qed.

Lemma iterator_arithmetic_inverts_witness :
  iter_ops.minus (iter.plus (Build_iterator 2) (-5)) (-5) = Build_iterator 2 /\
  iter.diff (iter.plus (Build_iterator 2) (-5)) (Build_iterator 2) = -5 /\
  iter_ops.decr (iter.incr (Build_iterator SIZE_MAX)) = Build_iterator SIZE_MAX.
Proof.
  pose proof (iterator_arithmetic_inverts (Build_iterator 2) (-5)
                ltac:(split; [discriminate | reflexivity])
                ltac:(split; discriminate)) as (Hminus & Hdiff & _).
  pose proof (iterator_arithmetic_inverts (Build_iterator SIZE_MAX) 0
                ltac:(split; [discriminate | reflexivity])
                ltac:(split; discriminate)) as (_ & _ & Hdecr & _).
  split; [exact Hminus | split; [exact Hdiff | exact Hdecr]].
Defined.

(** X8. Within the capacity, [end() - begin()] is [size()], [mend()]
    lies between [begin()] and [end()], it is [begin()] only on an
    empty buffer, and it is [end()] exactly when the valid elements do
    not run past the last slot of the backing array. *)
Theorem iterators_delimit_content {T : Type} (Size : Z)
    (b : circular_buffer T) :
  0 < Size <= PTRDIFF_MAX ->
  0 <= size b <= Size ->
  iter.diff (end_ b) (begin b) = size b /\
  iter_ops.le (begin b) (mend Size b) = true /\
  iter_ops.le (mend Size b) (end_ b) = true /\
  (iter_ops.eq (mend Size b) (begin b) = true <-> size b = 0) /\
  (iter_ops.eq (mend Size b) (end_ b) = true <->
   head b mod Size + size b <= Size).
Proof.
  unfold size. intros HS Hs. pose proof (Size_lt_mod Size HS) as HS'.
  pose proof (Z.mod_pos_bound (head b) Size ltac:(lia)) as Hm.
  unfold iter.diff, iter_ops.le, iter_ops.eq, mend. simpl.
  rewrite size_circle_end_eq by done.
  split; [|split; [|split; [|split]]].
  - rewrite Z.sub_0_r, wrap_small by lia.
    apply to_difference_small.
    assert (HP : PTRDIFF_MAX = 2 ^ 63 - 1) by reflexivity. lia.
  - apply Z.leb_le. lia.
  - apply Z.leb_le. lia.
  - rewrite Z.eqb_eq. lia.
  - rewrite Z.eqb_eq. lia.
Qed.

Lemma iterators_delimit_content_witness :
  let b := Build_circular_buffer (replicate 10 0) 14 8 in
  iter.diff (end_ b) (begin b) = 8 /\
  iter_ops.le (mend 10 b) (end_ b) = true.
Proof.
  pose proof (iterators_delimit_content 10
                (Build_circular_buffer (replicate 10 0) 14 8)
                ltac:(capacity_ok) ltac:(split; discriminate))
    as (Hdiff & _ & Hle & _).
  split; [exact Hdiff | exact Hle].
Defined.

(** X9. The loop [for (it = begin(); it != end(); ++it)] ends after
    [size()] steps and meets the elements [operator[](0)],
    [operator[](1)], and so on; the same loop up to [mend()] meets the
    first [mend() - begin()] of them. *)
Theorem range_for_visits_content {T : Type} `{!Inhabited T} (Size : Z)
    (b : circular_buffer T)
    (Hend : 0 <= pos_ (begin b) <= pos_ (end_ b)
            /\ pos_ (end_ b) < SIZE_MOD)
    (Hmend : 0 <= pos_ (begin b) <= pos_ (mend Size b)
             /\ pos_ (mend Size b) < SIZE_MOD) :
  range_for Size b (begin b) (end_ b) Hend
    = (fun i => at_index Size b i) <$> seqZ 0 (size b) /\
  length (range_for Size b (begin b) (end_ b) Hend) = Z.to_nat (size b) /\
  range_for Size b (begin b) (mend Size b) Hmend
    = take (Z.to_nat (pos_ (mend Size b)))
           (range_for Size b (begin b) (end_ b) Hend).
Proof.
  rewrite !range_for_eq. simpl in *. rewrite !Z.sub_0_r.
  split; [done|]. split; [by rewrite length_fmap, length_seqZ|].
  assert (Hle : size_circle_end Size b <= size_ b)
    by (unfold size_circle_end; lia).
  unfold size.
  assert (Hsplit : seqZ 0 (size_ b)
                   = seqZ 0 (size_circle_end Size b)
                     ++ seqZ (0 + size_circle_end Size b)
                             (size_ b - size_circle_end Size b))
    by (rewrite <- seqZ_app by lia; f_equal; lia).
  rewrite Hsplit, fmap_app.
  by rewrite take_app_length' by (rewrite length_fmap, length_seqZ; lia).
Qed.

Lemma range_for_visits_content_witness :
  let b := Build_circular_buffer (bytes "abcdefghij") 14 8 in
  exists Hend Hmend,
    range_for 10 b (begin b) (end_ b) Hend = bytes "ghijabcd" /\
    range_for 10 b (begin b) (mend 10 b) Hmend = bytes "ghij".
Proof.
  assert (Hend : 0 <= 0 <= 8 /\ 8 < SIZE_MOD)
    by (split; [split; discriminate | reflexivity]).
  assert (Hmend : 0 <= 0 <= 4 /\ 4 < SIZE_MOD)
    by (split; [split; discriminate | reflexivity]).
  exists Hend, Hmend.
  pose proof (range_for_visits_content 10
                (Build_circular_buffer (bytes "abcdefghij") 14 8)
                Hend Hmend) as (Hall & _ & Hrun).
  split; [exact Hall|]. rewrite Hrun, Hall. reflexivity.
Defined.

(** ** The DMA surface, continued *)

(** A window that does not run past the last slot is a segment of the
    backing array. *)
Lemma slots_contiguous {T : Type} `{!Inhabited T} (Size : Z) (d : list T)
    (start : Z) (k : nat) :
  0 < Size -> length d = Z.to_nat Size ->
  start mod Size + Z.of_nat k <= Size ->
  slots Size d start (Z.of_nat k)
  = take k (drop (Z.to_nat (start mod Size)) d).
Proof.
  intros HS Hd Hk.
  pose proof (Z.mod_pos_bound start Size HS) as Hm.
  apply list_eq. intros i. unfold slots.
  destruct (decide (i < k)%nat) as [Hi|Hi].
  - rewrite list_lookup_fmap, lookup_seqZ_lt by lia. simpl.
    rewrite lookup_take_lt, lookup_drop by lia.
    rewrite <- Zplus_mod_idemp_l, Z.mod_small by lia.
    replace (Z.to_nat (start mod Size + Z.of_nat i))
      with (Z.to_nat (start mod Size) + i)%nat by lia.
    symmetry. apply list_lookup_lookup_total_lt. lia.
  - rewrite lookup_take_ge by lia.
    apply lookup_ge_None_2. rewrite length_fmap, length_seqZ. lia.
Qed.

(** X10. In queue state the elements from [begin()] to [mend()] lie in
    consecutive slots of the backing array, starting at slot
    [head mod Capacity] and ending at or before its last slot. *)
Theorem mend_run_is_contiguous {T : Type} `{!Inhabited T} (Size : Z)
    (b : circular_buffer T) :
  0 < Size <= PTRDIFF_MAX ->
  queue_state Size b ->
  let h := Z.to_nat (head b mod Size) in
  let k := Z.to_nat (pos_ (mend Size b)) in
  take k (to_list Size b) = take k (drop h (storage b)) /\
  (h + k <= length (storage b))%nat.
Proof.
  intros HS Hq h k. subst h k. pose proof Hq as [Hd Hs Hh Ht].
  unfold mend, storage. simpl. rewrite size_circle_end_eq by done.
  pose proof (Z.mod_pos_bound (head b) Size ltac:(lia)) as Hm.
  set (k := Z.min (size_ b) (Size - head b mod Size)) in *.
  assert (Hhead : head b = tail_ b - size_ b)
    by (unfold head; apply wrap_small; lia).
  split; [|lia].
  rewrite to_list_slots by done.
  rewrite take_slots by lia. rewrite <- Hhead.
  apply slots_contiguous; lia.
Qed.

Lemma mend_run_is_contiguous_witness :
  let b := Build_circular_buffer (bytes "abcdefghij") 14 8 in
  take 4 (to_list 10 b) = take 4 (drop 6 (storage b)).
Proof.
  apply (mend_run_is_contiguous 10
           (Build_circular_buffer (bytes "abcdefghij") 14 8));
    [ capacity_ok
    | split; (reflexivity || (split; discriminate) || discriminate) ].
Defined.

(** X11. In queue state, and as long as the tail counter does not pass
    [SIZE_MAX], [update_head(p)] appends to the content what the
    backing array holds in the [d] slots from the physical tail up to
    slot [p mod Capacity], and keeps the newest [Capacity] elements of
    the result. *)
Theorem update_head_exposes_storage {T : Type} `{!Inhabited T} (Size : Z)
    (b : circular_buffer T) (p : Z) :
  0 < Size <= PTRDIFF_MAX ->
  queue_state Size b ->
  let d := wrap_distance Size b p in
  tail b + d < SIZE_MOD ->
  to_list Size (update_head Size b p)
    = newest (Z.to_nat Size)
        (to_list Size b ++ slots Size (storage b) (tail b) d) /\
  queue_state Size (update_head Size b p).
Proof.
  intros HS Hq d Hov. pose proof Hq as [Hd Hs Hh Ht].
  pose proof (wrap_distance_range Size HS b p) as Hr.
  pose proof (Size_lt_mod Size HS) as HS'.
  change (wrap_distance Size b p) with d in Hr.
  unfold tail, storage in *.
  assert (Hq' : queue_state Size (update_head Size b p)).
  { rewrite update_head_eq by done.
    change (wrap_distance Size b p) with d.
    rewrite !wrap_small by lia. split; simpl; lia || done. }
  split; [|done].
  rewrite (to_list_slots Size HS _ Hq'), (to_list_slots Size HS b Hq).
  rewrite update_head_eq by done.
  change (wrap_distance Size b p) with d. simpl.
  rewrite !wrap_small by lia.
  replace (tail_ b) with (tail_ b - size_ b + size_ b) at 3 by lia.
  rewrite <- slots_app by lia.
  unfold newest. rewrite length_slots.
  rewrite drop_slots by lia.
  f_equal; lia.
Qed.

Lemma update_head_exposes_storage_witness :
  to_list 10 (update_head 10
                (Build_circular_buffer (bytes "abcdefghij") 14 8) 7)
  = bytes "hijabcdefg".
Proof.
  apply (update_head_exposes_storage 10
           (Build_circular_buffer (bytes "abcdefghij") 14 8) 7);
    [ capacity_ok
    | split; (reflexivity || (split; discriminate) || discriminate)
    | reflexivity ].
Defined.

(** ** The buffer as a bounded queue *)

Section Refinement.

Context {T : Type} `{!Inhabited T}.
Variable Size : Z.
Hypothesis Size_range : 0 < Size <= PTRDIFF_MAX.

Implicit Types (b : circular_buffer T) (op : operation T).

Lemma written_nonneg op : 0 <= written op.
Proof. destruct op; simpl; lia. Qed.

Lemma written_total_nonneg (ops : list (operation T)) :
  0 <= written_total ops.
Proof.
  induction ops as [|op ops IH]; simpl; [lia|].
  pose proof (written_nonneg op). lia.
Qed.

Lemma tail_iter_pop (k : nat) b : tail_ (Nat.iter k pop b) = tail_ b.
Proof. induction k as [|k IH]; [done|]. simpl. exact IH. Qed.

Lemma data_iter_pop (k : nat) b : data_ (Nat.iter k pop b) = data_ b.
Proof. induction k as [|k IH]; [done|]. simpl. exact IH. Qed.

(** One call, seen on the sequence of held elements. *)
Lemma queue_step_refines b op :
  queue_state Size b -> queue_op op ->
  tail_ b + written op < SIZE_MOD ->
  queue_state Size (apply_operation Size b op) /\
  tail_ (apply_operation Size b op) <= tail_ b + written op /\
  to_list Size (apply_operation Size b op)
    = queue_step Size (to_list Size b) op.
Proof.
  intros Hq Hop Hov. pose proof Hq as [Hd Hs Hh Ht].
  pose proof (Size_lt_mod Size Size_range) as HS'.
  destruct op as [item| | |p|in_data|n|out_data];
    cbn [apply_operation written queue_step queue_op] in *.
  - destruct (to_list_shl Size Size_range [item] b Hq Hov)
      as (Hq' & Ht' & Hl).
    change (shl Size b [item]) with (push Size b item) in *.
    simpl length in Ht'. split; [done|]. split; [lia|done].
  - split; [by apply pop_queue_state|]. split; [simpl; lia|].
    apply to_list_pop. lia.
  - split; [split; simpl; lia || done|]. split; [simpl; lia|done].
  - done.
  - destruct (to_list_shl Size Size_range in_data b Hq Hov)
      as (Hq' & Ht' & Hl).
    split; [done|]. split; [lia|done].
  - rewrite shr_count_eq by done.
    split; [by apply iter_pop_queue_state|].
    rewrite tail_iter_pop. split; [lia|].
    apply to_list_iter_pop. lia.
  - unfold shr_array, size. rewrite length_to_list.
    destruct (Z.ltb_spec (size_ b) (Z.of_nat (length out_data)))
      as [Hlt|Hge];
      destruct (Nat.ltb_spec (Z.to_nat (size_ b)) (length out_data))
      as [Hlt'|Hge']; try lia.
    + simpl. split; [done|]. split; [lia|done].
    + rewrite shr_array_loop_fst.
      split; [by apply iter_pop_queue_state|].
      rewrite tail_iter_pop. split; [lia|].
      apply to_list_iter_pop. lia.
Qed.

Lemma queue_run_refines (ops : list (operation T)) : forall b,
  queue_state Size b -> Forall queue_op ops ->
  tail_ b + written_total ops < SIZE_MOD ->
  to_list Size (run Size b ops) = queue_run Size (to_list Size b) ops /\
  queue_state Size (run Size b ops).
Proof.
  induction ops as [|op ops IH]; intros b Hq Hops Hov; [done|].
  apply Forall_cons in Hops as [Hop Hops]. simpl in Hov.
  pose proof (written_total_nonneg ops) as Hw.
  destruct (queue_step_refines b op Hq Hop ltac:(lia)) as (Hq' & Ht' & Hl).
  simpl. rewrite <- Hl. apply IH; [done | done | lia].
Qed.

End Refinement.

(** X12. From a buffer in queue state, any sequence of [push], [pop],
    [clear], [<<] and both [>>] that does not carry the tail counter
    past [SIZE_MAX] leaves, for iteration, what a first-in first-out
    queue of capacity [Capacity] holds that gives up its oldest
    elements when full; a freshly constructed buffer starts as the
    empty queue. *)
Theorem buffer_refines_bounded_queue {T : Type} `{!Inhabited T} (Size : Z)
    (b : circular_buffer T) (ops : list (operation T)) :
  0 < Size <= PTRDIFF_MAX ->
  queue_state Size b ->
  Forall queue_op ops ->
  tail b + written_total ops < SIZE_MOD ->
  to_list Size (run Size b ops) = queue_run Size (to_list Size b) ops /\
  queue_state Size (run Size b ops) /\
  (tail b = 0 -> size b = 0 ->
   to_list Size (run Size b ops) = queue_run Size [] ops).
Proof.
  unfold tail, size. intros HS Hq Hops Hov.
  destruct (queue_run_refines Size HS ops b Hq Hops Hov) as [Hl Hq'].
  split; [done|]. split; [done|].
  intros _ Hs. by rewrite Hl, (to_list_empty Size b) by lia.
Qed.

Lemma buffer_refines_bounded_queue_witness :
  to_list 4 (run 4 (construct (replicate 4 0))
               [OpShl (bytes "abcdef"); OpPop; OpShrCount 1; OpPush 7;
                OpShrArray [0; 0]; OpPush 9])
  = [7; 9].
Proof.
  apply (buffer_refines_bounded_queue 4 (construct (replicate 4 0))
           [OpShl (bytes "abcdef"); OpPop; OpShrCount 1; OpPush 7;
            OpShrArray [0; 0]; OpPush 9]);
    [ capacity_ok
    | split; (reflexivity || (split; discriminate) || discriminate)
    | repeat (apply Forall_cons_2 || apply Forall_nil_2);
      first [ exact I | split; [discriminate | reflexivity] ]
    | reflexivity | reflexivity | reflexivity ].
Defined.

(** X13. Draining [n] elements into a container with [>>] and writing
    the container back with [<<] rotates the content: the [n] oldest
    elements become the newest, in the same order. *)
Theorem drain_then_refill_rotates {T : Type} `{!Inhabited T} (Size : Z)
    (b : circular_buffer T) (out_data : list T) :
  0 < Size <= PTRDIFF_MAX ->
  queue_state Size b ->
  Z.of_nat (length out_data) <= size b ->
  tail b + Z.of_nat (length out_data) < SIZE_MOD ->
  let (b1, got) := shr_array Size b out_data in
  got = take (length out_data) (to_list Size b) /\
  to_list Size (shl Size b1 got)
    = drop (length out_data) (to_list Size b)
      ++ take (length out_data) (to_list Size b).
Proof.
  unfold size, tail. intros HS Hq Hn Hov. pose proof Hq as [Hd Hs Hh Ht].
  pose proof (Size_lt_mod Size HS) as HS'.
  unfold shr_array, size.
  destruct (Z.ltb_spec (size_ b) (Z.of_nat (length out_data)))
    as [Hlt|_]; [lia|].
  pose proof (shr_array_loop_fst Size out_data b) as Hfst.
  pose proof (shr_array_loop_snd Size out_data b ltac:(lia) Hn) as Hsnd.
  destruct (shr_array_loop Size b out_data) as [b1 got]. simpl in *.
  subst b1 got. split; [done|].
  pose proof (iter_pop_queue_state Size HS (length out_data) b Hq) as Hq1.
  pose proof (length_to_list Size b) as Hlen.
  destruct (to_list_shl Size HS (take (length out_data) (to_list Size b))
              (Nat.iter (length out_data) pop b) Hq1) as (_ & _ & ->).
  { rewrite tail_iter_pop, length_take. lia. }
  rewrite to_list_iter_pop by lia. apply newest_all.
  rewrite length_app, length_drop, length_take. lia.
Qed.

Lemma drain_then_refill_rotates_witness :
  let b := Build_circular_buffer (bytes "abcd") 6 3 in
  to_list 4 (shl 4 (fst (shr_array 4 b [0; 0])) (snd (shr_array 4 b [0; 0])))
  = bytes "bda".
Proof.
  pose proof (drain_then_refill_rotates 4
                (Build_circular_buffer (bytes "abcd") 6 3) [0; 0]
                ltac:(capacity_ok)
                ltac:(split; (reflexivity || (split; discriminate)
                              || discriminate))
                ltac:(discriminate) ltac:(reflexivity)) as Hrot.
  exact (proj2 Hrot).
Defined.

(** ** What touches the backing array *)

(** X14. Only [push] (and so [<<]) writes to the backing array: [pop],
    [clear], [update_head] and both [>>] leave every slot as it is, so
    removed elements stay readable through [storage()]; [push] changes
    the one slot [tail mod Capacity] and no other. *)
Theorem storage_written_only_by_push {T : Type} `{!Inhabited T} (Size : Z)
    (b : circular_buffer T) :
  storage (pop b) = storage b /\
  storage (clear b) = storage b /\
  (forall p, storage (update_head Size b p) = storage b) /\
  (forall n, storage (shr_count b n) = storage b) /\
  (forall out_data, storage (fst (shr_array Size b out_data)) = storage b) /\
  (forall v, length (storage (push Size b v)) = length (storage b)) /\
  (forall v (j : nat),
      j <> Z.to_nat (tail b mod Size) ->
      storage (push Size b v) !! j = storage b !! j).
Proof.
  unfold storage, tail.
  split; [done|]. split; [done|]. split; [done|].
  split; [|split; [|split]].
  - intros n. unfold shr_count. rewrite shr_count_loop_eq.
    apply data_iter_pop.
  - intros out_data. unfold shr_array. destruct (_ <? _); [done|].
    rewrite shr_array_loop_fst. apply data_iter_pop.
  - intros v. unfold push, data_store. simpl. apply length_insert.
  - intros v j Hj. unfold push, data_store. simpl.
    by apply list_lookup_insert_ne.
Qed.

(** ** Comparison, by the value [res] starts with *)

(** X15. What [operator==] computes depends on the value its local
    [res] starts with: from [false] the result is [false] for every
    sequence; from [true], a sequence no longer than the content is
    accepted exactly when it is a prefix of the content, hence exactly
    when it equals the content if the lengths agree. *)
Theorem eq_array_by_initial_value {T : Type} `{!Inhabited T}
    `{!EqDecision T} (Size : Z) (b : circular_buffer T)
    (in_data : list T) :
  0 <= size b < SIZE_MOD ->
  Z.of_nat (length in_data) <= size b ->
  eq_array Size false b in_data = false /\
  (eq_array Size true b in_data = true <->
   in_data = take (length in_data) (to_list Size b)) /\
  (Z.of_nat (length in_data) = size b ->
   eq_array Size true b in_data = true <-> to_list Size b = in_data).
Proof.
  unfold size. intros Hs Hn.
  pose proof (eq_array_true_prefix Size b in_data Hs Hn) as Hprefix.
  split; [apply eq_array_loop_false|]. split; [done|].
  intros Hlen. rewrite Hprefix.
  rewrite take_ge by (rewrite length_to_list; lia).
  split; congruence.
Qed.

Lemma eq_array_by_initial_value_witness :
  let b := shl 4 (construct (replicate 4 0)) [1; 2] in
  eq_array 4 false b [1; 2] = false /\
  eq_array 4 true b [1] = true.
Proof.
  pose proof (eq_array_by_initial_value 4
                (shl 4 (construct (replicate 4 0)) [1; 2]) [1; 2]
                ltac:(split; [discriminate | reflexivity])
                ltac:(discriminate)) as (Hfalse & _).
  pose proof (eq_array_by_initial_value 4
                (shl 4 (construct (replicate 4 0)) [1; 2]) [1]
                ltac:(split; [discriminate | reflexivity])
                ltac:(discriminate)) as (_ & Hprefix & _).
  split; [exact Hfalse | apply Hprefix; reflexivity].
Defined.

(** ** circle_end *)

(** X16. On a buffer in queue state that is not empty, [circle_end()]
    lies after [head()] and not after [tail()], and it is either
    [tail()] or a multiple of [Capacity]: the logical position at which
    the contiguous run from [head()] stops. *)
Theorem circle_end_stops_at_boundary {T : Type} (Size : Z)
    (b : circular_buffer T) :
  0 < Size <= PTRDIFF_MAX ->
  queue_state Size b -> empty b = false ->
  head b < circle_end Size b <= tail b /\
  circle_end Size b = head b + pos_ (mend Size b) /\
  (circle_end Size b = tail b \/ circle_end Size b mod Size = 0).
Proof.
  unfold tail, empty. intros HS [Hd Hs Hh Ht] He%Z.eqb_neq.
  unfold circle_end, empty, mend. simpl.
  destruct (Z.eqb_spec (size_ b) 0) as [E|_]; [done|].
  rewrite size_circle_end_eq by done.
  assert (Hhead : head b = tail_ b - size_ b)
    by (unfold head; apply wrap_small; lia).
  pose proof (Z.mod_pos_bound (head b) Size ltac:(lia)) as Hm.
  pose proof (Z.div_mod (head b) Size ltac:(lia)) as Hdm.
  set (k := Z.min (size_ b) (Size - head b mod Size)) in *.
  assert (Hk : 0 < k <= size_ b) by lia.
  rewrite wrap_small by lia.
  split; [lia|]. split; [done|].
  destruct (decide (size_ b <= Size - head b mod Size)) as [Hle|Hgt].
  - left. lia.
  - right. replace (head b + k) with ((head b / Size + 1) * Size) by lia.
    apply Z_mod_mult.
Qed.

Lemma circle_end_stops_at_boundary_witness :
  let b := Build_circular_buffer (replicate 10 0) 14 8 in
  circle_end 10 b = head b + pos_ (mend 10 b).
Proof.
  pose proof (circle_end_stops_at_boundary 10
                (Build_circular_buffer (replicate 10 0) 14 8)
                ltac:(capacity_ok)
                ltac:(split; (reflexivity || (split; discriminate)
                              || discriminate))
                ltac:(reflexivity)) as (_ & Heq & _).
  exact Heq.
Defined.

(** ** Before begin() *)

(** X17. [--begin()] wraps to position [SIZE_MAX], so it compares
    greater than [end()]; dereferenced, it reads the slot before
    [head()]: after a [pop()] on a buffer in queue state that is the
    element just removed, which is still in the backing array. *)
Theorem before_begin_reads_popped {T : Type} `{!Inhabited T} (Size : Z)
    (b : circular_buffer T) :
  0 < Size <= PTRDIFF_MAX ->
  queue_state Size b -> empty b = false ->
  iter_ops.decr (begin b) = Build_iterator SIZE_MAX /\
  iter_ops.gt (iter_ops.decr (begin b)) (end_ b) = true /\
  deref Size (pop b) (iter_ops.decr (begin (pop b))) = front Size b.
Proof.
  unfold empty. intros HS [Hd Hs Hh Ht] He%Z.eqb_neq.
  pose proof (Size_lt_mod Size HS) as HS'.
  assert (HM : SIZE_MAX = SIZE_MOD - 1) by reflexivity.
  assert (Hdecr : wrap (0 - 1) = SIZE_MAX) by reflexivity.
  unfold iter_ops.decr, iter_ops.gt. simpl. rewrite Hdecr.
  split; [done|]. split; [apply Z.gtb_lt; lia|].
  rewrite pop_nonempty by lia.
  unfold deref, at_index, front, head, data. simpl.
  rewrite wrap_add_l.
  replace (tail_ b - (size_ b - 1) + SIZE_MAX)
    with (tail_ b - size_ b + 1 * SIZE_MOD) by lia.
  unfold wrap at 1. by rewrite Z_mod_plus_full.
Qed.

Lemma before_begin_reads_popped_witness :
  let b := Build_circular_buffer (bytes "abcd") 6 3 in
  deref 4 (pop b) (iter_ops.decr (begin (pop b))) = front 4 b.
Proof.
  pose proof (before_begin_reads_popped 4
                (Build_circular_buffer (bytes "abcd") 6 3)
                ltac:(capacity_ok)
                ltac:(split; (reflexivity || (split; discriminate)
                              || discriminate))
                ltac:(reflexivity)) as (_ & _ & Hread).
  exact Hread.
Defined.

(** ** update_head in two steps *)

Lemma wrap_distance_after {T : Type} (Size : Z) (b : circular_buffer T)
    (p q : Z) :
  0 < Size <= PTRDIFF_MAX ->
  0 <= tail_ b ->
  tail_ b + wrap_distance Size b p < SIZE_MOD ->
  wrap_distance Size b p <= wrap_distance Size b q ->
  wrap_distance Size (update_head Size b p) q
  = wrap_distance Size b q - wrap_distance Size b p.
Proof.
  intros HS Ht Hov Hle.
  pose proof (wrap_distance_range Size HS b p) as Hp.
  pose proof (wrap_distance_range Size HS b q) as Hq.
  pose proof (wrap_distance_reaches Size HS b p) as Hreach.
  rewrite update_head_eq by done.
  unfold wrap_distance at 1. simpl.
  rewrite wrap_small by lia. rewrite Hreach.
  rewrite <- (Z.mod_small (wrap_distance Size b q - wrap_distance Size b p)
                Size) by lia.
  unfold wrap_distance.
  rewrite <- (Zminus_mod (q mod Size - tail_ b mod Size)
                (p mod Size - tail_ b mod Size)).
  by replace (q mod Size - tail_ b mod Size - (p mod Size - tail_ b mod Size))
    with (q mod Size - p mod Size) by lia.
Qed.

(** X18. Moving the tail with [update_head] in two steps is moving it
    once: if slot [p] lies on the way from the physical tail to slot
    [q], then [update_head(p)] followed by [update_head(q)] leaves the
    buffer as [update_head(q)] alone does. *)
Theorem update_head_in_two_steps {T : Type} (Size : Z)
    (b : circular_buffer T) (p q : Z) :
  0 < Size <= PTRDIFF_MAX ->
  0 <= tail b -> 0 <= size b <= Size ->
  tail b + wrap_distance Size b q < SIZE_MOD ->
  wrap_distance Size b p <= wrap_distance Size b q ->
  update_head Size (update_head Size b p) q = update_head Size b q.
Proof.
  unfold tail, size. intros HS Ht Hs Hov Hle.
  pose proof (wrap_distance_range Size HS b p) as Hp.
  pose proof (wrap_distance_range Size HS b q) as Hq.
  pose proof (Size_lt_mod Size HS) as HS'.
  pose proof (wrap_distance_after Size b p q HS Ht ltac:(lia) Hle) as Hd.
  rewrite (update_head_eq Size HS (update_head Size b p) q), Hd.
  rewrite !update_head_eq by done. simpl.
  rewrite (wrap_small (tail_ b + wrap_distance Size b p)) by lia.
  rewrite (wrap_small (size_ b + wrap_distance Size b p)) by lia.
  rewrite (wrap_small (size_ b + wrap_distance Size b q)) by lia.
  repeat rewrite wrap_small by lia.
  f_equal; lia.
Qed.

Lemma update_head_in_two_steps_witness :
  let b := construct (bytes "abcdefghij") in
  update_head 10 (update_head 10 b 4) 8 = update_head 10 b 8.
Proof.
  apply (update_head_in_two_steps 10 (construct (bytes "abcdefghij")) 4 8);
    [ capacity_ok | discriminate | split; discriminate
    | reflexivity | discriminate ].
Defined.
